(** * create-issues.py: parsing a review document and filing its issues

    A shallow embedding of [.github/scripts/create-issues.py] and the
    properties of its parser, body renderer and runner.

    Text.  A Python [str] is modelled as a [string] whose characters are the
    code points below 256; the built-in methods used by the script
    ([str.strip], [str.split], [str.lower], [int], [str.join]) are written
    out on that range.  The two marks of the console messages (U+2713 and
    U+2717) appear in the messages as the bytes of the literal.

    Effects.  [main] runs in a small monad that threads the list of
    observable events (console lines, the file read, the calls to the
    tracker) and stops at the first exception that is not caught.  The
    outside world (environment variables, the file system, the answers of
    the tracker) is a record [world]; every theorem about [main] quantifies
    over it. *)

From Stdlib Require Import ZArith Ascii String Lia Bool.
From stdpp Require Import base list strings gmap pretty.

Local Open Scope Z_scope.

(** ** Characters and literals *)

Definition nl : string := String "010"%char "".

Definition code (a : ascii) : N := N_of_ascii a.

(** [str.isspace] on one character: the code points below 256 that Python
    treats as white space. *)
Definition isspace (a : ascii) : bool :=
  match a with
  | "009" | "010" | "011" | "012" | "013"
  | "028" | "029" | "030" | "031" | " " | "133" | "160" => true
  | _ => false
  end%char.

(** [\d] of the [re] module on a [str] pattern. *)
Definition isdigit (a : ascii) : bool :=
  ((48 <=? code a) && (code a <=? 57))%N.

Definition digit_value (a : ascii) : Z := Z.of_N (code a) - 48.

(** ** [str] methods *)

Module Str.

Fixpoint lstrip (s : string) : string :=
  match s with
  | String a s' => if isspace a then lstrip s' else s
  | "" => ""
  end.

Fixpoint rstrip (s : string) : string :=
  match s with
  | String a s' =>
      match rstrip s' with
      | "" => if isspace a then "" else String a ""
      | r => String a r
      end
  | "" => ""
  end.

(** [s.strip()] *)
Definition strip (s : string) : string := rstrip (lstrip s).

(** [s.split(sep)] for a separator of one character: one piece more than
    there are separators, empty pieces kept. *)
Fixpoint split (sep : ascii) (s : string) : list string :=
  match s with
  | String a s' =>
      if Ascii.eqb a sep then "" :: split sep s'
      else match split sep s' with
           | p :: ps => String a p :: ps
           | [] => [String a ""]
           end
  | "" => [""]
  end.

(** [sep.join(l)] *)
Fixpoint join (sep : string) (l : list string) : string :=
  match l with
  | [] => ""
  | [x] => x
  | x :: l' => x +:+ sep +:+ join sep l'
  end.

Definition lower_char (a : ascii) : ascii :=
  let n := code a in
  if ((65 <=? n) && (n <=? 90)
      || (192 <=? n) && (n <=? 222) && negb (n =? 215))%N
  then ascii_of_N (n + 32) else a.

(** [s.lower()] *)
Fixpoint lower (s : string) : string :=
  match s with
  | String a s' => String (lower_char a) (lower s')
  | "" => ""
  end.

End Str.

(** ** [int(s)] on a [str]

    White space around the number, an optional sign, decimal digits with
    single underscores between them.  The white space of [int] is narrower
    than that of [str.strip]: the separators U+001C to U+001F are not
    skipped.  [maxd] is the interpreter's limit on the number of digits
    ([sys.get_int_max_str_digits()], 0 for none). *)

Definition int_space (a : ascii) : bool :=
  match a with
  | "009" | "010" | "011" | "012" | "013" | " " | "133" | "160" => true
  | _ => false
  end%char.

Inductive int_state := IntStart | IntDigit | IntUnderscore | IntTrailing.

Fixpoint int_body (st : int_state) (acc : Z) (cnt : nat) (s : string)
  : option (Z * nat) :=
  match s with
  | String a s' =>
      if isdigit a then
        match st with
        | IntTrailing => None
        | _ => int_body IntDigit (10 * acc + digit_value a) (S cnt) s'
        end
      else if Ascii.eqb a "_" then
        match st with
        | IntDigit => int_body IntUnderscore acc cnt s'
        | _ => None
        end
      else if int_space a then
        match st with
        | IntDigit | IntTrailing => int_body IntTrailing acc cnt s'
        | _ => None
        end
      else None
  | "" =>
      match st with
      | IntDigit | IntTrailing => Some (acc, cnt)
      | _ => None
      end
  end.

Fixpoint int_lskip (s : string) : string :=
  match s with
  | String a s' => if int_space a then int_lskip s' else s
  | "" => ""
  end.

(** The optional sign: whether the number is negated, and what follows. *)
Definition int_sign (s : string) : bool * string :=
  match s with
  | String "-" r => (true, r)
  | String "+" r => (false, r)
  | r => (false, r)
  end.

Definition py_int (maxd : nat) (s : string) : option Z :=
  let '(neg, body) := int_sign (int_lskip s) in
  match int_body IntStart 0 0%nat body with
  | Some (v, cnt) =>
      if (negb (maxd =? 0) && (maxd <? cnt))%nat then None
      else Some (if neg then - v else v)
  | None => None
  end.

(** ** Exceptions *)

(** [Error cls msg] stands for any instance of a subclass of [Exception],
    with its class name and its [str()]; the text of the interpreter's own
    messages is not modelled (for [int] the argument is kept instead). *)
Inductive exn : Type :=
| SystemExit (status : Z)
| KeyboardInterrupt
| Error (cls msg : string).

(** What [except Exception] catches. *)
Definition is_Exception (e : exn) : bool :=
  match e with
  | Error _ _ => true
  | SystemExit _ | KeyboardInterrupt => false
  end.

(** [str(e)] *)
Definition exn_str (e : exn) : string :=
  match e with
  | Error _ msg => msg
  | SystemExit c => pretty c
  | KeyboardInterrupt => ""
  end.

Inductive result (A : Type) : Type :=
| Ok (a : A)
| Raise (e : exn).
Arguments Ok {A} a.
Arguments Raise {A} e.

(** ** The fragment of [re] used by [issue_pattern]

    The pattern is a sequence of literal texts and of capture groups, each
    group being one character class under [+] (greedy, one or more) or [*?]
    (lazy, zero or more).  Matching is the backtracking search of [re]: a
    greedy group tries the longest run first, a lazy one the shortest, and
    the first success in that order is the match. *)

Module Re.

Inductive cls := Digit | NotNewline | AnyChar.
Inductive quant := Plus | LazyStar.
Inductive node :=
| Lit (text : string)
| Group (c : cls) (q : quant).

Definition in_cls (c : cls) (a : ascii) : bool :=
  match c with
  | Digit => isdigit a
  | NotNewline => negb (Ascii.eqb a "010")
  | AnyChar => true
  end.

(** [captures, rest]: the texts of the groups still to come and the input
    left after the match. *)
Definition tail_match : Type := list string * string.

Fixpoint skip_lit (l s : string) : option string :=
  match l, s with
  | "", _ => Some s
  | String a l', String b s' => if Ascii.eqb a b then skip_lit l' s' else None
  | String _ _, "" => None
  end.

Definition grow (a : ascii) (r : option (string * tail_match))
  : option (string * tail_match) :=
  match r with
  | Some (g, t) => Some (String a g, t)
  | None => None
  end.

Definition stop (r : option tail_match) : option (string * tail_match) :=
  match r with
  | Some t => Some ("", t)
  | None => None
  end.

Fixpoint greedy_star (c : cls) (k : string -> option tail_match) (s : string)
  : option (string * tail_match) :=
  match s with
  | String a s' =>
      if in_cls c a then
        match greedy_star c k s' with
        | Some r => grow a (Some r)
        | None => stop (k s)
        end
      else stop (k s)
  | "" => stop (k s)
  end.

Definition greedy_plus (c : cls) (k : string -> option tail_match) (s : string)
  : option (string * tail_match) :=
  match s with
  | String a s' => if in_cls c a then grow a (greedy_star c k s') else None
  | "" => None
  end.

Fixpoint lazy_star (c : cls) (k : string -> option tail_match) (s : string)
  : option (string * tail_match) :=
  match k s with
  | Some t => Some ("", t)
  | None =>
      match s with
      | String a s' => if in_cls c a then grow a (lazy_star c k s') else None
      | "" => None
      end
  end.

Definition repeat (q : quant) :=
  match q with
  | Plus => greedy_plus
  | LazyStar => lazy_star
  end.

(** The match of pattern [p] anchored at the start of [s] (what
    [pattern.match] returns): the captured groups in order, and the rest of
    the input. *)
Fixpoint match_here (p : list node) (s : string) : option tail_match :=
  match p with
  | [] => Some ([], s)
  | Lit l :: p' =>
      match skip_lit l s with
      | Some s' => match_here p' s'
      | None => None
      end
  | Group c q :: p' =>
      match repeat q c (match_here p') s with
      | Some (g, (caps, rest)) => Some (g :: caps, rest)
      | None => None
      end
  end.

(** [re.finditer]: the matches from left to right, each search starting
    where the previous match ended.  [inside] counts the characters of the
    previous match that are still to be passed over.  (A pattern that can
    match the empty text needs more care; [issue_pattern] cannot.) *)
Fixpoint finditer_from (p : list node) (inside : nat) (s : string)
  : list (list string) :=
  match s with
  | String _ s' =>
      match inside with
      | S n => finditer_from p n s'
      | O =>
          match match_here p s with
          | Some (caps, rest) =>
              caps :: finditer_from p (String.length s - String.length rest - 1) s'
          | None => finditer_from p 0 s'
          end
      end
  | "" => []
  end.

Definition finditer (p : list node) (s : string) : list (list string) :=
  finditer_from p 0 s.

(** [m.group(i)], for [i >= 1]. *)
Definition group (m : list string) (i : nat) : string := nth (i - 1) m "".

End Re.

(** ** [parse_issues_file] *)

Record IssueRecord := {
  number : Z;
  short_title : string;
  title : string;
  description : string;
  goals : string;
  files : string;
  acceptance : string;
  labels : list string;
  effort : string
}.

Import Re.

Definition issue_pattern : list node :=
  [ Lit "### Issue "; Group Digit Plus; Lit ": "; Group NotNewline Plus;
    Lit (nl +:+ "**Title**: "); Group NotNewline Plus;
    Lit (nl +:+ nl +:+ "**Description**:" +:+ nl); Group AnyChar LazyStar;
    Lit (nl +:+ nl +:+ "**Goals**:" +:+ nl); Group AnyChar LazyStar;
    Lit (nl +:+ nl +:+ "**Files to modify**:" +:+ nl); Group AnyChar LazyStar;
    Lit (nl +:+ nl +:+ "**Acceptance Criteria**:" +:+ nl); Group AnyChar LazyStar;
    Lit (nl +:+ nl +:+ "**Labels**: "); Group NotNewline Plus;
    Lit (nl +:+ "**Estimated effort**: "); Group NotNewline Plus ].

(** [[l.strip() for l in labels_str.split(',')]] with
    [labels_str = match.group(8).strip()]. *)
Definition parse_labels (line : string) : list string :=
  Str.strip <$> Str.split "," (Str.strip line).

(** The body of the loop over the matches. *)
Definition issue_of_match (maxd : nat) (m : list string) : result IssueRecord :=
  match py_int maxd (group m 1) with
  | None => Raise (Error "ValueError" (group m 1))
  | Some issue_num =>
      Ok {| number := issue_num;
            short_title := Str.strip (group m 2);
            title := Str.strip (group m 3);
            description := Str.strip (group m 4);
            goals := Str.strip (group m 5);
            files := Str.strip (group m 6);
            acceptance := Str.strip (group m 7);
            labels := parse_labels (group m 8);
            effort := Str.strip (group m 9) |}
  end.

Fixpoint collect_issues (maxd : nat) (ms : list (list string))
  : result (list IssueRecord) :=
  match ms with
  | [] => Ok []
  | m :: ms' =>
      match issue_of_match maxd m with
      | Raise e => Raise e
      | Ok r =>
          match collect_issues maxd ms' with
          | Raise e => Raise e
          | Ok rs => Ok (r :: rs)
          end
      end
  end.

(** [parse_issues_file] on the text read from the file. *)
Definition parse_issues (maxd : nat) (content : string)
  : result (list IssueRecord) :=
  collect_issues maxd (finditer issue_pattern content).

(** ** [create_issue_body] *)

Definition create_issue_body (issue : IssueRecord) : string :=
  "## Description" +:+ nl +:+ nl +:+
  description issue +:+ nl +:+ nl +:+
  "## Goals" +:+ nl +:+ nl +:+
  goals issue +:+ nl +:+ nl +:+
  "## Files to modify" +:+ nl +:+ nl +:+
  files issue +:+ nl +:+ nl +:+
  "## Acceptance Criteria" +:+ nl +:+ nl +:+
  acceptance issue +:+ nl +:+ nl +:+
  "---" +:+ nl +:+
  "**Estimated Effort**: " +:+ effort issue +:+ nl +:+
  "**Related to**: Code Review 2025-10-24" +:+ nl.

(** ** The outside world and the events of a run *)

Inductive event : Type :=
| Print (line : string)                       (* print(line) *)
| ReadFile (path : string)                    (* open(path, 'r') and f.read() *)
| GetRepo (token repo : string)               (* Github(token).get_repo(repo) *)
| GetLabels                                   (* iterating repo.get_labels() *)
| CreateLabel (name color : string)           (* repo.create_label(name, color) *)
| CreateIssue (title body : string) (labels : list string).
                                              (* repo.create_issue(title, body, labels) *)

(** The calls that reach the tracker.  [Github(token)] itself only builds
    the client object and is not a call. *)
Definition is_remote (ev : event) : bool :=
  match ev with
  | GetRepo _ _ | GetLabels | CreateLabel _ _ | CreateIssue _ _ _ => true
  | Print _ | ReadFile _ => false
  end.

(** The answers of the tracker may depend on everything that happened
    before the call, which is passed as the list of earlier events. *)
Record world : Type := {
  environ : string -> option string;          (* os.getenv(name) *)
  int_max_str_digits : nat;
  file_system : string -> result string;
  get_repo : list event -> string -> string -> result unit;
  get_labels : list event -> result (list string);
  create_label : list event -> string -> string -> result unit;
  create_issue :
    list event -> string -> string -> list string -> result (Z * string)
      (* number and html_url of the new issue *)
}.

(** ** The monad of a run: the events so far, and a value or an exception *)

Definition M (A : Type) : Type := list event -> list event * result A.

#[global] Instance M_ret : MRet M := fun A a t => (t, Ok a).

#[global] Instance M_bind : MBind M := fun A B f m t =>
  match m t with
  | (t', Ok a) => f a t'
  | (t', Raise e) => (t', Raise e)
  end.

Definition raise {A} (e : exn) : M A := fun t => (t, Raise e).

Definition lift {A} (r : result A) : M A := fun t => (t, r).

Definition print (line : string) : M unit := fun t => (t ++ [Print line], Ok tt).

(** A call to the outside: the event is recorded, the answer is the
    world's. *)
Definition call {A} (ev : event) (answer : list event -> result A) : M A :=
  fun t => (t ++ [ev], answer t).

(** [try: body  except Exception as e: handler(e)] *)
Definition try_except {A} (body : M A) (handler : exn -> M A) : M A :=
  fun t =>
    match body t with
    | (t', Raise e) => if is_Exception e then handler e t' else (t', Raise e)
    | done => done
    end.

(** [for x in l: s = body(s, x)] *)
Fixpoint for_each {A S} (body : S -> A -> M S) (l : list A) (s : S) : M S :=
  match l with
  | [] => mret s
  | x :: l' => s' ← body s x; for_each body l' s'
  end.

(** ** [main] *)

(** [os.getenv(name, default)] *)
Definition getenv (w : world) (name default : string) : string :=
  match environ w name with
  | Some v => v
  | None => default
  end.

(** [int(s)], raising [ValueError]. *)
Definition int_ (w : world) (s : string) : M Z :=
  match py_int (int_max_str_digits w) s with
  | Some n => mret n
  | None => raise (Error "ValueError" s)
  end.

(** [str(b)] of a [bool] inside an f-string. *)
Definition bool_str (b : bool) : string := if b then "True" else "False".

Record config : Type := {
  dry_run : bool;
  start_issue : Z;
  end_issue : Z
}.

Definition dry_run_flag (w : world) : bool :=
  String.eqb (Str.lower (getenv w "DRY_RUN" "true")) "true".

(** Lines 74 to 81: the configuration, and its summary on the console. *)
Definition read_config (w : world) : M config :=
  let dry_run := dry_run_flag w in
  start_issue ← int_ w (getenv w "START_ISSUE" "1");
  end_issue ← int_ w (getenv w "END_ISSUE" "20");
  print "Configuration:";;
  print ("  Dry run: " +:+ bool_str dry_run);;
  print ("  Issue range: " +:+ pretty start_issue +:+ " to " +:+ pretty end_issue);;
  print "";;
  mret {| dry_run := dry_run; start_issue := start_issue; end_issue := end_issue |}.

Definition issues_file : string :=
  "code-reviews/2025-10-24-comprehensive-review/CODE_REVIEW_ISSUES.md".

Definition parse_issues_file (w : world) (filepath : string)
  : M (list IssueRecord) :=
  content ← call (ReadFile filepath) (fun _ => file_system w filepath);
  lift (parse_issues (int_max_str_digits w) content).

(** [[issue for issue in issues if start_issue <= issue['number'] <= end_issue]] *)
Definition filter_issues (start_issue end_issue : Z) (issues : list IssueRecord)
  : list IssueRecord :=
  List.filter
    (fun issue => (start_issue <=? number issue) && (number issue <=? end_issue))
    issues.

Definition len {A} (l : list A) : Z := Z.of_nat (length l).

(** Lines 84 to 93: the document is read, parsed and filtered. *)
Definition load_issues (w : world) (cfg : config) : M (list IssueRecord) :=
  issues ← parse_issues_file w issues_file;
  print ("Parsed " +:+ pretty (len issues) +:+ " issues from CODE_REVIEW_ISSUES.md");;
  print "";;
  let filtered_issues := filter_issues (start_issue cfg) (end_issue cfg) issues in
  print ("Creating " +:+ pretty (len filtered_issues) +:+ " issues (range: "
         +:+ pretty (start_issue cfg) +:+ "-" +:+ pretty (end_issue cfg) +:+ ")");;
  print "";;
  mret filtered_issues.

(** Lines 96 to 112, the body of [if not dry_run]: the credentials are
    checked ([None] and the empty text are both false for [not]), the
    repository is fetched and its label names are collected in a set.
    [Github(github_token)], between the two checks, builds the client and
    calls nothing. *)
Definition connect (w : world) : M (gset string) :=
  match environ w "GITHUB_TOKEN" with
  | None | Some "" =>
      print "ERROR: GITHUB_TOKEN environment variable not set";;
      raise (SystemExit 1)
  | Some github_token =>
      match environ w "GITHUB_REPOSITORY" with
      | None | Some "" =>
          print "ERROR: GITHUB_REPOSITORY environment variable not set";;
          raise (SystemExit 1)
      | Some github_repo =>
          call (GetRepo github_token github_repo)
               (fun t => get_repo w t github_token github_repo);;
          names ← call GetLabels (get_labels w);
          mret (list_to_set names)
      end
  end.

(** Lines 128 to 133, for one label. *)
Definition ensure_label (w : world) (existing_labels : gset string)
    (label : string) : M (gset string) :=
  if decide (label ∈ existing_labels) then mret existing_labels
  else
    print ("  Creating label: " +:+ label);;
    call (CreateLabel label "0366d6")
         (fun t => create_label w t label "0366d6");;
    mret ({[label]} ∪ existing_labels).

(** The state of the loop over the issues: the known label names (bound
    only in live mode, and read only there) and [created_count]. *)
Definition loop_state : Type := gset string * Z.

(** Lines 117 to 147: the body of [for issue in filtered_issues]. *)
Definition process_issue (w : world) (dry_run : bool) (st : loop_state)
    (issue : IssueRecord) : M loop_state :=
  let '(existing_labels, created_count) := st in
  let body := create_issue_body issue in
  print ((if dry_run then "[DRY RUN] " else "") +:+ "Issue #"
         +:+ pretty (number issue) +:+ ": " +:+ title issue);;
  print ("  Labels: " +:+ Str.join ", " (labels issue));;
  print ("  Effort: " +:+ effort issue);;
  if dry_run then
    print ("  Would create issue with title: " +:+ title issue);;
    print "";;
    mret (existing_labels, created_count)
  else
    existing_labels ← for_each (ensure_label w) (labels issue) existing_labels;
    created_count ←
      try_except
        (created_issue ← call (CreateIssue (title issue) body (labels issue))
                              (fun t => create_issue w t (title issue) body (labels issue));
         print ("  ✓ Created issue #" +:+ pretty (created_issue.1) +:+ ": "
                +:+ created_issue.2);;
         print "";;
         mret (created_count + 1))
        (fun e =>
         print ("  ✗ Error creating issue: " +:+ exn_str e);;
         print "";;
         mret created_count);
    mret (existing_labels, created_count).

(** Lines 149 to 154. *)
Definition summary (dry_run : bool) (created_count : Z)
    (filtered_issues : list IssueRecord) : M unit :=
  print "Done!";;
  if dry_run then
    print (nl +:+ "This was a DRY RUN. No issues were created.");;
    print "To create issues, run this workflow again with dry_run=false"
  else
    print (nl +:+ "✓ Successfully created " +:+ pretty created_count +:+ " of "
           +:+ pretty (len filtered_issues) +:+ " issues").

Definition main (w : world) : M unit :=
  cfg ← read_config w;
  filtered_issues ← load_issues w cfg;
  existing_labels ← (if negb (dry_run cfg) then connect w else mret ∅);
  st ← for_each (process_issue w (dry_run cfg)) filtered_issues (existing_labels, 0);
  summary (dry_run cfg) st.2 filtered_issues.

(** The run of the script as a process: the events, and how it ended
    ([Ok]: exit status 0; [Raise (SystemExit c)]: exit status [c]; any other
    exception: a traceback and a nonzero status). *)
Definition run (w : world) : list event * result unit := main w [].

(** ** Notions used to state the properties *)

(** *** Text *)

(** Every character of [s] satisfies [p]. *)
Fixpoint all_chars (p : ascii -> bool) (s : string) : bool :=
  match s with
  | String a s' => p a && all_chars p s'
  | "" => true
  end.

Definition starts_with_space (s : string) : bool :=
  match s with
  | String a _ => isspace a
  | "" => false
  end.

Fixpoint ends_with_space (s : string) : bool :=
  match s with
  | String a "" => isspace a
  | String _ s' => ends_with_space s'
  | "" => false
  end.

(** No white space at either end. *)
Definition trimmed (s : string) : Prop :=
  starts_with_space s = false /\ ends_with_space s = false.

(** [l] is [piece] without the white space at its two ends. *)
Definition trim_of (piece l : string) : Prop :=
  exists w1 w2, piece = w1 +:+ l +:+ w2
    /\ all_chars isspace w1 = true /\ all_chars isspace w2 = true
    /\ trimmed l.

Definition is_not (c : ascii) (a : ascii) : bool := negb (Ascii.eqb a c).

(** The number of occurrences of a character. *)
Fixpoint count_char (c : ascii) (s : string) : nat :=
  match s with
  | String a s' => (if Ascii.eqb a c then 1 else 0) + count_char c s'
  | "" => 0
  end.

(** [sub] occurs in [s] as a contiguous piece of text. *)
Definition occurs_in (sub s : string) : Prop :=
  exists before after, s = before +:+ sub +:+ after.

Fixpoint occurs_inb (sub s : string) : bool :=
  match Re.skip_lit sub s with
  | Some _ => true
  | None =>
      match s with
      | String _ s' => occurs_inb sub s'
      | "" => false
      end
  end.

Definition on_head {A} (f : A -> A) (l : list A) : list A :=
  match l with
  | x :: l' => f x :: l'
  | [] => []
  end.

Fixpoint on_last {A} (f : A -> A) (l : list A) : list A :=
  match l with
  | [] => []
  | [x] => [f x]
  | x :: l' => x :: on_last f l'
  end.

(** *** The texts that [int] accepts, said without the automaton *)

(** Decimal digits, with single underscores between digits. *)
Inductive digit_run : string -> Prop :=
| digit_run_one a :
    isdigit a = true -> digit_run (String a "")
| digit_run_more a s :
    isdigit a = true -> digit_run s -> digit_run (String a s)
| digit_run_underscore a s :
    isdigit a = true -> digit_run s -> digit_run (String a (String "_" s)).

Fixpoint digit_count (s : string) : nat :=
  match s with
  | String a s' => (if isdigit a then 1 else 0) + digit_count s'
  | "" => 0
  end.

(** White space, an optional sign, a run of digits, white space; and no
    more digits than the interpreter allows. *)
Definition int_literal (maxd : nat) (s : string) : Prop :=
  exists ws1 sign body ws2,
    s = ws1 +:+ sign +:+ body +:+ ws2
    /\ all_chars int_space ws1 = true /\ all_chars int_space ws2 = true
    /\ (sign = "" \/ sign = "+" \/ sign = "-")
    /\ digit_run body
    /\ (maxd = 0 \/ digit_count body <= maxd)%nat.

(** *** Matches *)

(** The text a match covers: the literals of the pattern with the captured
    groups in their places. *)
Fixpoint fill (p : list node) (caps : list string) : string :=
  match p with
  | [] => ""
  | Lit l :: p' => l +:+ fill p' caps
  | Group _ _ :: p' =>
      match caps with
      | g :: caps' => g +:+ fill p' caps'
      | [] => fill p' []
      end
  end.

Fixpoint groups (p : list node) : nat :=
  match p with
  | [] => 0
  | Lit _ :: p' => groups p'
  | Group _ _ :: p' => S (groups p')
  end.

(** The text [s] does not go on with a character of the class [c]. *)
Definition stops (c : cls) (s : string) : Prop :=
  match s with
  | String a _ => in_cls c a = false
  | "" => True
  end.

(** The captures [caps] are what the backtracking search settles on for
    the text [fill p caps +:+ rest]: a greedy group is a non-empty run of its
    class that the text does not continue, a lazy group is a run of its class
    of which no shorter prefix lets the rest of the pattern match. *)
Fixpoint fits (p : list node) (caps : list string) (rest : string) : Prop :=
  match p, caps with
  | [], [] => True
  | Lit _ :: p', _ => fits p' caps rest
  | Group c Plus :: p', x :: caps' =>
      x <> "" /\ all_chars (in_cls c) x = true
      /\ stops c (fill p' caps' +:+ rest)
      /\ fits p' caps' rest
  | Group c LazyStar :: p', x :: caps' =>
      all_chars (in_cls c) x = true
      /\ (forall x1 x2, x = x1 +:+ x2 -> x2 <> "" ->
            match_here p' (x2 +:+ fill p' caps' +:+ rest) = None)
      /\ fits p' caps' rest
  | _, _ => False
  end.

(** A free-form text that the lazy groups capture whole: no blank line
    inside, and no newline at its end. *)
Fixpoint no_blank_line (s : string) : bool :=
  match s with
  | String "010" "" => false
  | String "010" (String "010" _) => false
  | String _ s' => no_blank_line s'
  | "" => true
  end.

(** A one-line field: not empty, no newline. *)
Definition one_line (s : string) : Prop :=
  s <> "" /\ all_chars (in_cls NotNewline) s = true.

(** The text of a section: the grammar with the nine fields in place. *)
Definition section_block (num short ti d g f a ls e : string) : string :=
  fill issue_pattern [num; short; ti; d; g; f; a; ls; e].

(** [issue_pattern] matches at no position of the document. *)
Definition no_section (doc : string) : Prop :=
  forall before s, doc = before +:+ s -> match_here issue_pattern s = None.

Fixpoint no_sectionb (doc : string) : bool :=
  match match_here issue_pattern doc with
  | Some _ => false
  | None =>
      match doc with
      | String _ doc' => no_sectionb doc'
      | "" => true
      end
  end.

(** *** Runs *)

(** The spellings of [true] that [str.lower] maps to ["true"]. *)
Definition spells_true (v : string) : Prop :=
  exists c1 c2 c3 c4 : ascii,
    v = String c1 (String c2 (String c3 (String c4 "")))
    /\ (c1 = "t" \/ c1 = "T")%char /\ (c2 = "r" \/ c2 = "R")%char
    /\ (c3 = "u" \/ c3 = "U")%char /\ (c4 = "e" \/ c4 = "E")%char.

(** Lines 74 to 93 as one step: what happens before the credentials are
    looked at. *)
Definition prologue (w : world) : M (config * list IssueRecord) :=
  cfg ← read_config w;
  filtered_issues ← load_issues w cfg;
  mret (cfg, filtered_issues).

(** Lines 95 to 154 as one step: what happens once the issues are
    filtered. *)
Definition epilogue (w : world) (cfg : config)
    (filtered_issues : list IssueRecord) : M unit :=
  existing_labels ← (if negb (dry_run cfg) then connect w else mret ∅);
  st ← for_each (process_issue w (dry_run cfg)) filtered_issues (existing_labels, 0);
  summary (dry_run cfg) st.2 filtered_issues.

(** A computation only adds events, all of them satisfying [P], to the
    events so far, and a value it returns satisfies [Q]. *)
Definition traces {A} (P : event -> Prop) (Q : A -> Prop) (m : M A) : Prop :=
  forall t, exists d,
    (m t).1 = t ++ d /\ Forall P d /\ forall a, (m t).2 = Ok a -> Q a.

Definition local (ev : event) : Prop := is_remote ev = false.

Definition is_create (ev : event) : bool :=
  match ev with
  | CreateIssue _ _ _ => true
  | _ => false
  end.

(** An event that is not a call to [create_issue]. *)
Definition quiet (ev : event) : Prop := is_create ev = false.

(** The calls to [create_issue] among the events [d]. *)
Fixpoint attempted (d : list event) : Z :=
  match d with
  | [] => 0
  | ev :: d' => (if is_create ev then 1 else 0) + attempted d'
  end.

(** The calls to [create_issue] among the events [d] that the tracker
    answered with a new issue; [before] are the events that precede [d]. *)
Fixpoint created_in (w : world) (before d : list event) : Z :=
  match d with
  | [] => 0
  | ev :: d' =>
      match ev with
      | CreateIssue title body labels =>
          match create_issue w before title body labels with
          | Ok _ => 1
          | Raise _ => 0
          end
      | _ => 0
      end + created_in w (before ++ [ev]) d'
  end.

(** The console lines of [read_config]. *)
Definition config_lines (dry_run : bool) (start_issue end_issue : Z)
  : list event :=
  [ Print "Configuration:";
    Print ("  Dry run: " +:+ bool_str dry_run);
    Print ("  Issue range: " +:+ pretty start_issue +:+ " to " +:+ pretty end_issue);
    Print "" ].

(** The events of [load_issues]. *)
Definition load_lines (parsed kept : Z) (start_issue end_issue : Z)
  : list event :=
  [ ReadFile issues_file;
    Print ("Parsed " +:+ pretty parsed +:+ " issues from CODE_REVIEW_ISSUES.md");
    Print "";
    Print ("Creating " +:+ pretty kept +:+ " issues (range: "
           +:+ pretty start_issue +:+ "-" +:+ pretty end_issue +:+ ")");
    Print "" ].

(** The three console lines that open the processing of a record. *)
Definition issue_header (dry_run : bool) (issue : IssueRecord) : list event :=
  [ Print ((if dry_run then "[DRY RUN] " else "") +:+ "Issue #"
           +:+ pretty (number issue) +:+ ": " +:+ title issue);
    Print ("  Labels: " +:+ Str.join ", " (labels issue));
    Print ("  Effort: " +:+ effort issue) ].

(** The call that creates the issue of a record. *)
Definition create_call (issue : IssueRecord) : event :=
  CreateIssue (title issue) (create_issue_body issue) (labels issue).

Definition summary_line (created_count total : Z) : event :=
  Print (nl +:+ "✓ Successfully created " +:+ pretty created_count +:+ " of "
         +:+ pretty total +:+ " issues").

(** ** Sample documents and worlds *)

(** A document of one section whose description is indented. *)
Definition indented_doc : string :=
"### Issue 1: Docs
**Title**: Fix the docs

**Description**:
  indented text

**Goals**:
G

**Files to modify**:
F

**Acceptance Criteria**:
A

**Labels**: docs
**Estimated effort**: 1h".

Definition indented_record : IssueRecord :=
  {| number := 1; short_title := "Docs"; title := "Fix the docs";
     description := "indented text"; goals := "G"; files := "F";
     acceptance := "A"; labels := ["docs"]; effort := "1h" |}.

(** A document of one section whose labels line has an empty piece. *)
Definition empty_label_doc : string :=
"### Issue 7: Perf
**Title**: Speed up

**Description**:
D

**Goals**:
G

**Files to modify**:
F

**Acceptance Criteria**:
A

**Labels**: bug,,perf
**Estimated effort**: 2h".

Definition empty_label_record : IssueRecord :=
  {| number := 7; short_title := "Perf"; title := "Speed up";
     description := "D"; goals := "G"; files := "F";
     acceptance := "A"; labels := ["bug"; ""; "perf"]; effort := "2h" |}.

(** A document of two sections, numbered 1 and 2. *)
Definition two_issue_doc : string :=
"# Code review issues

### Issue 1: Logging
**Title**: Add structured logging

**Description**:
Handlers print to stdout.

**Goals**:
- one logger

**Files to modify**:
- main.go

**Acceptance Criteria**:
- no fmt.Println left

**Labels**: enhancement, logging
**Estimated effort**: 2 hours

### Issue 2: Tests
**Title**: Cover the handlers

**Description**:
No handler test.

**Goals**:
- table tests

**Files to modify**:
- handler_test.go

**Acceptance Criteria**:
- coverage above 80%

**Labels**: testing
**Estimated effort**: 1 day
".

(** A document without any section. *)
Definition no_issue_doc : string :=
"# Code review issues

Nothing to report.
".

Definition env_of (vars : list (string * string)) (name : string)
  : option string :=
  match List.find (fun kv => String.eqb kv.1 name) vars with
  | Some kv => Some kv.2
  | None => None
  end.

(** A tracker that knows the label [enhancement], accepts every label and
    refuses the issue titled [Add structured logging]. *)
Definition sample_world (vars : list (string * string)) (doc : string) : world :=
  {| environ := env_of vars;
     int_max_str_digits := 4300;
     file_system := fun _ => Ok doc;
     get_repo := fun _ _ _ => Ok tt;
     get_labels := fun _ => Ok ["enhancement"];
     create_label := fun _ _ _ => Ok tt;
     create_issue := fun _ title _ _ =>
       if String.eqb title "Add structured logging"
       then Raise (Error "GithubException" "422 Validation Failed")
       else Ok (41, "https://github.com/o/r/issues/41") |}.

Definition live_vars : list (string * string) :=
  [("DRY_RUN", "false"); ("GITHUB_TOKEN", "t0ken"); ("GITHUB_REPOSITORY", "o/r")].

(** Live mode, with a token and no repository. *)
Definition world_without_repository : world :=
  sample_world [("DRY_RUN", "false"); ("GITHUB_TOKEN", "t0ken")] two_issue_doc.

(** Live mode, with [END_ISSUE] set to [ten]. *)
Definition world_with_bad_bound : world :=
  sample_world [("END_ISSUE", "ten"); ("DRY_RUN", "false")] two_issue_doc.

(** Live mode, with both credentials, on the document of two sections. *)
Definition live_world : world := sample_world live_vars two_issue_doc.

(** The two records of [two_issue_doc]. *)
Definition logging_issue : IssueRecord :=
  {| number := 1; short_title := "Logging";
     title := "Add structured logging";
     description := "Handlers print to stdout.";
     goals := "- one logger"; files := "- main.go";
     acceptance := "- no fmt.Println left";
     labels := ["enhancement"; "logging"]; effort := "2 hours" |}.

Definition tests_issue : IssueRecord :=
  {| number := 2; short_title := "Tests";
     title := "Cover the handlers";
     description := "No handler test.";
     goals := "- table tests"; files := "- handler_test.go";
     acceptance := "- coverage above 80%";
     labels := ["testing"]; effort := "1 day" |}.

(** ** Notions used by the further properties *)

(** The fixed texts of a pattern. *)
Fixpoint literals (p : list node) : list string :=
  match p with
  | [] => []
  | Lit l :: p' => l :: literals p'
  | Group _ _ :: p' => literals p'
  end.

(** Each captured text is made of characters of the class of its group,
    and is not empty under [+]. *)
Fixpoint in_classes (p : list node) (caps : list string) : Prop :=
  match p, caps with
  | [], _ => True
  | Lit _ :: p', _ => in_classes p' caps
  | Group c q :: p', x :: caps' =>
      all_chars (in_cls c) x = true /\ (q = Plus -> x <> "")
      /\ in_classes p' caps'
  | Group _ _ :: _, [] => False
  end.

(** The number that a run of decimal digits writes, after [acc]. *)
Fixpoint decimal (acc : Z) (s : string) : Z :=
  match s with
  | String a s' => decimal (10 * acc + digit_value a) s'
  | "" => acc
  end.

(** A section cut short: the line of the estimated effort is missing. *)
Definition truncated_doc : string :=
"### Issue 3: Cache
**Title**: Add a cache

**Description**:
D

**Goals**:
G

**Files to modify**:
F

**Acceptance Criteria**:
A

**Labels**: perf
".

(** The report of one record in a dry run. *)
Definition dry_report (issue : IssueRecord) : list event :=
  issue_header true issue
  ++ [ Print ("  Would create issue with title: " +:+ title issue); Print "" ].

(** The last lines of a dry run. *)
Definition dry_footer : list event :=
  [ Print "Done!";
    Print (nl +:+ "This was a DRY RUN. No issues were created.");
    Print "To create issues, run this workflow again with dry_run=false" ].

(** A variable that [not] takes for missing: not set, or set to the empty
    text. *)
Definition unset (o : option string) : Prop := o = None \/ o = Some "".

(** The calls to [create_issue] among the events, in order. *)
Definition create_calls (d : list event) : list event := List.filter is_create d.

(** Live mode with an empty token, and a repository. *)
Definition world_with_empty_token : world :=
  sample_world
    [("DRY_RUN", "false"); ("GITHUB_TOKEN", ""); ("GITHUB_REPOSITORY", "o/r")]
    two_issue_doc.

(** A dry run from issue 2 on. *)
Definition dry_world_from_2 : world :=
  sample_world [("START_ISSUE", "2")] two_issue_doc.

(** The exception of an answer, if it is one. *)
Definition failure {A} (r : result A) : option exn :=
  match r with
  | Raise e => Some e
  | Ok _ => None
  end.

(** The exception that the script does not catch, if the world answers the
    call [ev], made after the events [before], with one: any exception of the
    file system and of the tracker, but for [create_issue] only what is not
    an [Exception]. *)
Definition fatal (w : world) (before : list event) (ev : event) : option exn :=
  match ev with
  | Print _ => None
  | ReadFile path => failure (file_system w path)
  | GetRepo token repo => failure (get_repo w before token repo)
  | GetLabels => failure (get_labels w before)
  | CreateLabel name color => failure (create_label w before name color)
  | CreateIssue title body labels =>
      match create_issue w before title body labels with
      | Raise e => if is_Exception e then None else Some e
      | Ok _ => None
      end
  end.

(** Among the events [d], made after [before], a call answered with an
    exception that is not caught is the last one, and [r] is that
    exception. *)
Fixpoint ends_on_fatal {A} (w : world) (before d : list event) (r : result A)
  : Prop :=
  match d with
  | [] => True
  | ev :: d' =>
      match fatal w before ev with
      | Some e => d' = [] /\ r = Raise e
      | None => ends_on_fatal w (before ++ [ev]) d' r
      end
  end.

Definition strict {A} (w : world) (m : M A) : Prop :=
  forall t, exists d, (m t).1 = t ++ d /\ ends_on_fatal w t d (m t).2.

(** A tracker that refuses to create labels. *)
Definition world_refusing_labels : world :=
  {| environ := env_of live_vars;
     int_max_str_digits := 4300;
     file_system := fun _ => Ok two_issue_doc;
     get_repo := fun _ _ _ => Ok tt;
     get_labels := fun _ => Ok ["enhancement"];
     create_label := fun _ _ _ => Raise (Error "GithubException" "403 Forbidden");
     create_issue := fun _ _ _ _ => Ok (41, "https://github.com/o/r/issues/41") |}.

(** The label names known to exist in the repository after the call [ev],
    made after the events [t], when [known] were known before it: those that
    [get_labels] answered, and those that [create_label] was called for. *)
Definition learn (w : world) (t : list event) (ev : event)
    (known : gset string) : gset string :=
  match ev with
  | GetLabels =>
      match get_labels w t with
      | Ok names => list_to_set names ∪ known
      | Raise _ => known
      end
  | CreateLabel name _ => {[name]} ∪ known
  | _ => known
  end.

Fixpoint known_after (w : world) (t d : list event) (known : gset string)
  : gset string :=
  match d with
  | [] => known
  | ev :: d' => known_after w (t ++ [ev]) d' (learn w t ev known)
  end.

(** A label is created only when it is not known, and an issue is created
    only with known labels. *)
Definition allowed (known : gset string) (ev : event) : Prop :=
  match ev with
  | CreateLabel name _ => name ∉ known
  | CreateIssue _ _ labels => Forall (.∈ known) labels
  | _ => True
  end.

Fixpoint label_discipline (w : world) (t d : list event) (known : gset string)
  : Prop :=
  match d with
  | [] => True
  | ev :: d' =>
      allowed known ev /\ label_discipline w (t ++ [ev]) d' (learn w t ev known)
  end.

(** A computation started with the labels [known] respects the discipline,
    and the set [out a] it computes is the set of the known labels. *)
Definition keeps_labels {A} (w : world) (known : gset string) (m : M A)
    (out : A -> gset string) : Prop :=
  forall t, exists d,
    (m t).1 = t ++ d /\ label_discipline w t d known
    /\ forall a, (m t).2 = Ok a -> known_after w t d known = out a.

Definition disciplined {A} (w : world) (known : gset string) (m : M A) : Prop :=
  forall t, exists d, (m t).1 = t ++ d /\ label_discipline w t d known.

(** The label [l] was fetched by a [get_labels] call among the events [d]. *)
Definition fetched (w : world) (d : list event) (l : string) : Prop :=
  exists t1 t2 names,
    d = t1 ++ GetLabels :: t2 /\ get_labels w t1 = Ok names /\ l ∈ names.

(** [create_label] was called for [l] among the events [d]. *)
Definition label_created (d : list event) (l : string) : Prop :=
  exists t1 t2 color, d = t1 ++ CreateLabel l color :: t2.

(** The run of [live_world] up to the first [create_issue] call, and after
    it. *)
Definition before_first_issue : list event :=
  config_lines false 1 20 ++ load_lines 2 2 1 20
    ++ [GetRepo "t0ken" "o/r"; GetLabels]
    ++ issue_header false logging_issue
    ++ [Print "  Creating label: logging"; CreateLabel "logging" "0366d6"].

Definition after_first_issue : list event :=
  [ Print "  ✗ Error creating issue: 422 Validation Failed"; Print "" ]
    ++ issue_header false tests_issue
    ++ [ Print "  Creating label: testing"; CreateLabel "testing" "0366d6";
         create_call tests_issue;
         Print "  ✓ Created issue #41: https://github.com/o/r/issues/41";
         Print ""; Print "Done!"; summary_line 1 2 ].

(** *** Content of a section *)

(** The digits [num] are within the limit that [int] puts on a text (no
    limit when [maxd] is 0). *)
Definition digits_allowed (maxd : nat) (num : string) : Prop :=
  (maxd = 0 \/ String.length num <= maxd)%nat.

(** The text [text] of a section is preserved as [field] in [body]: [field]
    is [text] without the white space at its two ends and occurs in [body];
    so [text] itself occurs in [body] when it has no white space at its
    ends. *)
Definition preserved (text field body : string) : Prop :=
  field = Str.strip text
  /\ trim_of text field
  /\ occurs_in field body
  /\ (trimmed text -> occurs_in text body).

(** The record [r], rendered, preserves the description, the goals, the
    files and the acceptance criteria captured by the match [m]. *)
Definition rendered_from (m : list string) (r : IssueRecord) : Prop :=
  preserved (Re.group m 4) (description r) (create_issue_body r)
  /\ preserved (Re.group m 5) (goals r) (create_issue_body r)
  /\ preserved (Re.group m 6) (files r) (create_issue_body r)
  /\ preserved (Re.group m 7) (acceptance r) (create_issue_body r).

(** ** Properties *)

(** *** The model on concrete inputs *)

Example strip_examples :
  Str.strip "  a b  " = "a b"
  /\ Str.strip (nl +:+ " x" +:+ nl) = "x"
  /\ Str.strip "   " = ""
  /\ Str.split "," ",a," = [""; "a"; ""]
  /\ Str.join ", " ["a"; "b"; "c"] = "a, b, c"
  /\ Str.lower "TrUe Z@[" = "true z@[".
Proof. by repeat split. Qed.

Example int_examples :
  py_int 4300 <$> [" 5 "; "+5"; "-5"; "1_0"; "007"; "-0"; " -12_3  "]
    = [Some 5; Some 5; Some (-5); Some 10; Some 7; Some 0; Some (-123)]
  /\ Forall (fun s => py_int 4300 s = None)
       ["_1"; "1_"; "1__0"; ""; "+"; " "; "0x10"; "1.5"; "5 5"; "+ 5";
        "--5"; "ten"].
Proof. split; [done|]. repeat constructor. Qed.

Example two_issue_doc_parsed :
  parse_issues 4300 two_issue_doc = Ok [logging_issue; tests_issue].
Proof. by vm_compute. Qed.

(** A live run in which the tracker refuses the first issue. *)
Example live_run_one_of_two :
  run live_world =
  ([ Print "Configuration:"; Print "  Dry run: False";
     Print "  Issue range: 1 to 20"; Print "";
     ReadFile issues_file;
     Print "Parsed 2 issues from CODE_REVIEW_ISSUES.md"; Print "";
     Print "Creating 2 issues (range: 1-20)"; Print "";
     GetRepo "t0ken" "o/r"; GetLabels;
     Print "Issue #1: Add structured logging";
     Print "  Labels: enhancement, logging"; Print "  Effort: 2 hours";
     Print "  Creating label: logging"; CreateLabel "logging" "0366d6";
     create_call logging_issue;
     Print "  ✗ Error creating issue: 422 Validation Failed"; Print "";
     Print "Issue #2: Cover the handlers";
     Print "  Labels: testing"; Print "  Effort: 1 day";
     Print "  Creating label: testing"; CreateLabel "testing" "0366d6";
     create_call tests_issue;
     Print "  ✓ Created issue #41: https://github.com/o/r/issues/41"; Print "";
     Print "Done!";
     Print (nl +:+ "✓ Successfully created 1 of 2 issues") ],
   Ok tt).
Proof. by vm_compute. Qed.

(** A dry run from issue 2 on. *)
Example dry_run_from_issue_2 :
  run (sample_world [("START_ISSUE", "2")] two_issue_doc) =
  ([ Print "Configuration:"; Print "  Dry run: True";
     Print "  Issue range: 2 to 20"; Print "";
     ReadFile issues_file;
     Print "Parsed 2 issues from CODE_REVIEW_ISSUES.md"; Print "";
     Print "Creating 1 issues (range: 2-20)"; Print "";
     Print "[DRY RUN] Issue #2: Cover the handlers";
     Print "  Labels: testing"; Print "  Effort: 1 day";
     Print "  Would create issue with title: Cover the handlers"; Print "";
     Print "Done!";
     Print (nl +:+ "This was a DRY RUN. No issues were created.");
     Print "To create issues, run this workflow again with dry_run=false" ],
   Ok tt).
Proof. by vm_compute. Qed.


(** *** Text *)

Section Text.

Implicit Types (s t u : string) (a c : ascii) (p : ascii -> bool).

Lemma append_cons a s t : String a s +:+ t = String a (s +:+ t).
Proof. reflexivity. Qed.

Lemma append_nil_l s : "" +:+ s = s.
Proof. reflexivity. Qed.

Lemma append_nil_r s : s +:+ "" = s.
Proof. induction s as [|a s IH]; [done|]. by rewrite ?append_cons, IH. Qed.

Lemma append_assoc s t u : (s +:+ t) +:+ u = s +:+ t +:+ u.
Proof. induction s as [|a s IH]; [done|]. by rewrite !append_cons, IH. Qed.

Lemma all_chars_app p s t :
  all_chars p (s +:+ t) = all_chars p s && all_chars p t.
Proof.
  induction s as [|a s IH]; [done|].
  rewrite ?append_cons. simpl. by rewrite IH, andb_assoc.
Qed.

Lemma all_chars_impl p (q : ascii -> bool) s :
  (forall a, p a = true -> q a = true) ->
  all_chars p s = true -> all_chars q s = true.
Proof.
  intros Hpq. induction s as [|a s IH]; [done|]. simpl.
  intros [Ha Hs]%andb_true_iff. rewrite (Hpq _ Ha). simpl. auto.
Qed.

(** **** [lstrip], [rstrip], [strip] *)

Lemma lstrip_spec s :
  exists w, s = w +:+ Str.lstrip s /\ all_chars isspace w = true
            /\ starts_with_space (Str.lstrip s) = false.
Proof.
  induction s as [|a s (w & Hs & Hw & Hh)]; [by exists ""|].
  simpl. destruct (isspace a) eqn:Ha.
  - exists (String a w). rewrite ?append_cons, <- Hs. simpl. by rewrite Ha, Hw.
  - exists "". by simpl.
Qed.

Lemma rstrip_spec s :
  exists w, s = Str.rstrip s +:+ w /\ all_chars isspace w = true
            /\ ends_with_space (Str.rstrip s) = false.
Proof.
  induction s as [|a s (w & Hs & Hw & Hl)]; [by exists ""|].
  simpl. destruct (Str.rstrip s) as [|b r] eqn:Hr.
  - rewrite append_nil_l in Hs. subst w. destruct (isspace a) eqn:Ha.
    + exists (String a s). simpl. by rewrite Ha, Hw.
    + exists s. by simpl.
  - exists w. split; [by rewrite (append_cons a), <- Hs|]. by simpl in *.
Qed.

Lemma lstrip_all_space s : all_chars isspace s = true -> Str.lstrip s = "".
Proof.
  induction s as [|a s IH]; [done|]. simpl.
  intros [Ha Hs]%andb_true_iff. rewrite Ha. auto.
Qed.

Lemma rstrip_all_space s : all_chars isspace s = true -> Str.rstrip s = "".
Proof.
  induction s as [|a s IH]; [done|]. simpl.
  intros [Ha Hs]%andb_true_iff. by rewrite (IH Hs), Ha.
Qed.

Lemma lstrip_app_space w s :
  all_chars isspace w = true -> Str.lstrip (w +:+ s) = Str.lstrip s.
Proof.
  induction w as [|a w IH]; [done|]. simpl.
  intros [Ha Hw]%andb_true_iff. rewrite ?append_cons. simpl. rewrite Ha. auto.
Qed.

Lemma rstrip_app_space s w :
  all_chars isspace w = true -> Str.rstrip (s +:+ w) = Str.rstrip s.
Proof.
  intros Hw. induction s as [|a s IH].
  - rewrite append_nil_l. by apply rstrip_all_space.
  - rewrite ?append_cons. simpl. by rewrite IH.
Qed.

Lemma lstrip_app s t :
  Str.lstrip (s +:+ t) =
  if all_chars isspace s then Str.lstrip t else Str.lstrip s +:+ t.
Proof.
  induction s as [|a s IH]; [done|].
  rewrite ?append_cons. simpl. destruct (isspace a); simpl; done.
Qed.

Lemma strip_app_space_l w s :
  all_chars isspace w = true -> Str.strip (w +:+ s) = Str.strip s.
Proof. intros Hw. unfold Str.strip. by rewrite lstrip_app_space. Qed.

Lemma strip_app_space_r s w :
  all_chars isspace w = true -> Str.strip (s +:+ w) = Str.strip s.
Proof.
  intros Hw. unfold Str.strip. rewrite lstrip_app.
  destruct (all_chars isspace s) eqn:Hs.
  - by rewrite !lstrip_all_space.
  - by apply rstrip_app_space.
Qed.

Lemma rstrip_head a s :
  starts_with_space (String a s) = false ->
  exists r, Str.rstrip (String a s) = String a r.
Proof.
  simpl. intros ->. destruct (Str.rstrip s); eauto.
Qed.

(** [strip] removes white space at both ends, and nothing else. *)
Lemma strip_spec s :
  exists w1 w2, s = w1 +:+ Str.strip s +:+ w2
    /\ all_chars isspace w1 = true /\ all_chars isspace w2 = true
    /\ trimmed (Str.strip s).
Proof.
  destruct (lstrip_spec s) as (w1 & Hs & Hw1 & Hh).
  destruct (rstrip_spec (Str.lstrip s)) as (w2 & Hl & Hw2 & He).
  exists w1, w2. unfold Str.strip, trimmed.
  rewrite <- Hl. repeat split; try done.
  destruct (Str.lstrip s) as [|a l]; [done|].
  destruct (rstrip_head a l Hh) as [r ->]. exact Hh.
Qed.

Lemma strip_empty_iff s : Str.strip s = "" <-> all_chars isspace s = true.
Proof.
  split.
  - intros He. destruct (strip_spec s) as (w1 & w2 & Hs & Hw1 & Hw2 & _).
    rewrite He, append_nil_l in Hs. rewrite Hs, all_chars_app, Hw1, Hw2. done.
  - intros Hs. unfold Str.strip. by rewrite lstrip_all_space.
Qed.

Lemma strip_trimmed_id s : trimmed s -> Str.strip s = s.
Proof.
  intros [Hh He]. unfold Str.strip.
  assert (Str.lstrip s = s) as -> by (destruct s; simpl in *; [done|by rewrite Hh]).
  clear Hh. induction s as [|a s IH]; [done|].
  simpl. destruct s as [|b s].
  - simpl in *. by rewrite He.
  - rewrite IH by exact He. done.
Qed.

End Text.

(** **** [split] and [join] *)

Section Split.

Variable c : ascii.
Implicit Types (s w : string) (l : list string).

Lemma split_cons s : exists p ps, Str.split c s = p :: ps.
Proof.
  induction s as [|a s (p & ps & IH)]; simpl; [eauto|].
  destruct (Ascii.eqb a c); [eauto|]. rewrite IH. eauto.
Qed.

Lemma join_split s : Str.join (String c "") (Str.split c s) = s.
Proof.
  induction s as [|a s IH]; [done|]. cbn [Str.split].
  destruct (split_cons s) as (p & ps & Hs). rewrite Hs in *.
  destruct (Ascii.eqb_spec a c) as [->|_].
  - change (String c (Str.join (String c "") (p :: ps)) = String c s).
    by rewrite IH.
  - destruct ps as [|q ps].
    + change (String a (Str.join (String c "") [p]) = String a s).
      by rewrite IH.
    + change (String a (Str.join (String c "") (p :: q :: ps)) = String a s).
      by rewrite IH.
Qed.

Lemma split_pieces s :
  Forall (fun p => all_chars (is_not c) p = true) (Str.split c s).
Proof.
  induction s as [|a s IH]; simpl; [by repeat constructor|].
  destruct (split_cons s) as (p & ps & Hs). rewrite Hs in *.
  destruct (Ascii.eqb a c) eqn:Ha; [by constructor|].
  inversion_clear IH. constructor; [|done].
  simpl. unfold is_not at 1. by rewrite Ha.
Qed.

Lemma split_length s : length (Str.split c s) = S (count_char c s).
Proof.
  induction s as [|a s IH]; [done|]. simpl.
  destruct (split_cons s) as (p & ps & Hs). rewrite Hs in *.
  destruct (Ascii.eqb a c); simpl in *; lia.
Qed.

Lemma split_app_l w s :
  all_chars (is_not c) w = true ->
  Str.split c (w +:+ s) = on_head (String.append w) (Str.split c s).
Proof.
  induction w as [|a w IH]; simpl.
  - intros _. rewrite append_nil_l. by destruct (Str.split c s).
  - intros [Ha Hw]%andb_true_iff. rewrite ?append_cons. simpl.
    unfold is_not in Ha. apply negb_true_iff in Ha. rewrite Ha, (IH Hw).
    destruct (split_cons s) as (p & ps & ->). reflexivity.
Qed.

Lemma split_no_sep w : all_chars (is_not c) w = true -> Str.split c w = [w].
Proof.
  induction w as [|a w IH]; [done|]. simpl.
  intros [Ha Hw]%andb_true_iff.
  unfold is_not in Ha. apply negb_true_iff in Ha. by rewrite Ha, (IH Hw).
Qed.

Lemma split_app_r s w :
  all_chars (is_not c) w = true ->
  Str.split c (s +:+ w) = on_last (fun p => p +:+ w) (Str.split c s).
Proof.
  intros Hw. induction s as [|a s IH].
  - rewrite append_nil_l. by rewrite split_no_sep.
  - rewrite ?append_cons. simpl. rewrite IH.
    destruct (split_cons s) as (p & ps & ->).
    destruct (Ascii.eqb a c); [done|]. by destruct ps.
Qed.

End Split.

Lemma fmap_on_head {A B} (g : A -> B) (f : A -> A) (l : list A) :
  (forall x, g (f x) = g x) -> g <$> on_head f l = g <$> l.
Proof. intros Hg. destruct l; simpl; [done|]. by rewrite Hg. Qed.

Lemma fmap_on_last {A B} (g : A -> B) (f : A -> A) (l : list A) :
  (forall x, g (f x) = g x) -> g <$> on_last f l = g <$> l.
Proof.
  intros Hg. induction l as [|x l IH]; [done|].
  destruct l as [|y l]; [simpl; by rewrite Hg|].
  change (g x :: (g <$> on_last f (y :: l)) = g x :: (g <$> y :: l)).
  by rewrite IH.
Qed.

Lemma space_is_not_comma a : isspace a = true -> is_not "," a = true.
Proof. by destruct a as [[] [] [] [] [] [] [] []]. Qed.

(** Stripping the whole labels line first changes nothing. *)
Lemma parse_labels_pieces line :
  parse_labels line = Str.strip <$> Str.split "," line.
Proof.
  unfold parse_labels.
  destruct (strip_spec line) as (w1 & w2 & Hl & Hw1 & Hw2 & _).
  rewrite Hl at 2.
  rewrite split_app_l by eauto using all_chars_impl, space_is_not_comma.
  rewrite split_app_r by eauto using all_chars_impl, space_is_not_comma.
  rewrite fmap_on_head by (intros; by apply strip_app_space_l).
  rewrite fmap_on_last by (intros; by apply strip_app_space_r).
  done.
Qed.

Lemma strip_trim_of piece : trim_of piece (Str.strip piece).
Proof.
  destruct (strip_spec piece) as (w1 & w2 & ? & ? & ? & ?). by exists w1, w2.
Qed.

Lemma Forall2_fmap_strip l : Forall2 trim_of l (Str.strip <$> l).
Proof. induction l; constructor; auto using strip_trim_of. Qed.

(** C4.  The labels line is cut at every comma ([join] of the pieces with
    commas gives the line back, and no piece contains a comma); the labels
    are these pieces, in the same order and as many (nothing dropped, no
    duplicate removed), each without the white space at its two ends.  The
    line ["bug, needs-review,perf"] gives [bug], [needs-review], [perf]. *)
Theorem labels_split_and_trimmed (line : string) :
  let pieces := Str.split "," line in
  Str.join "," pieces = line
  /\ Forall (fun p => all_chars (is_not ",") p = true) pieces
  /\ parse_labels line = Str.strip <$> pieces
  /\ Forall2 trim_of pieces (parse_labels line)
  /\ length (parse_labels line) = S (count_char "," line)
  /\ parse_labels "bug, needs-review,perf" = ["bug"; "needs-review"; "perf"]
  /\ parse_labels " a ,b,a, " = ["a"; "b"; "a"; ""].
Proof.
  cbv zeta. rewrite parse_labels_pieces. repeat split.
  - apply join_split.
  - apply split_pieces.
  - apply Forall2_fmap_strip.
  - by rewrite length_fmap, split_length.
Qed.

(** *** Filtering by number *)

Section Filtering.

Variables start_issue end_issue : Z.

Lemma filter_issues_cons r issues :
  filter_issues start_issue end_issue (r :: issues) =
  if (start_issue <=? number r) && (number r <=? end_issue)
  then r :: filter_issues start_issue end_issue issues
  else filter_issues start_issue end_issue issues.
Proof. reflexivity. Qed.

Lemma in_range_test r :
  (start_issue <=? number r) && (number r <=? end_issue) = true
  <-> start_issue <= number r <= end_issue.
Proof. rewrite andb_true_iff, !Z.leb_le. tauto. Qed.

Lemma elem_of_filter_issues r issues :
  r ∈ filter_issues start_issue end_issue issues
  <-> r ∈ issues /\ start_issue <= number r <= end_issue.
Proof.
  unfold filter_issues. rewrite !list_elem_of_In, filter_In.
  by rewrite in_range_test.
Qed.

Lemma filter_issues_sublist issues :
  filter_issues start_issue end_issue issues `sublist_of` issues.
Proof.
  induction issues as [|r issues IH]; [constructor|].
  rewrite filter_issues_cons. destruct (_ && _); by constructor.
Qed.

Lemma filter_issues_greatest issues l :
  l `sublist_of` issues ->
  Forall (fun r => start_issue <= number r <= end_issue) l ->
  l `sublist_of` filter_issues start_issue end_issue issues.
Proof.
  induction 1 as [|r l issues Hl IH|r l issues Hl IH]; intros Hall.
  - constructor.
  - inversion_clear Hall as [|? ? Hr Hall'].
    rewrite filter_issues_cons. apply in_range_test in Hr as ->.
    constructor. auto.
  - rewrite filter_issues_cons. destruct (_ && _); [constructor|]; auto.
Qed.

End Filtering.

(** C3.  The kept records are exactly the records whose number lies between
    the two bounds, both included; they form a subsequence of the parsed
    sequence (same relative order), and the greatest one: every subsequence
    of in-range records is a subsequence of the kept ones, so no occurrence
    is lost.  A record numbered [start] or [end] is kept (when the range is
    not empty), one numbered [start - 1] or [end + 1] is dropped. *)
Theorem filter_inclusive_in_order
    (start_issue end_issue : Z) (issues : list IssueRecord) :
  let kept := filter_issues start_issue end_issue issues in
  (forall r, r ∈ kept <-> r ∈ issues /\ start_issue <= number r <= end_issue)
  /\ kept `sublist_of` issues
  /\ (forall l, l `sublist_of` issues ->
        Forall (fun r => start_issue <= number r <= end_issue) l ->
        l `sublist_of` kept)
  /\ (forall r, r ∈ issues -> start_issue <= end_issue ->
        number r = start_issue \/ number r = end_issue -> r ∈ kept)
  /\ (forall r, number r = start_issue - 1 \/ number r = end_issue + 1 ->
        r ∉ kept).
Proof.
  cbv zeta. split; [|split; [|split; [|split]]].
  - intros r. apply elem_of_filter_issues.
  - apply filter_issues_sublist.
  - intros l. apply filter_issues_greatest.
  - intros r Hr Hle Hn. apply elem_of_filter_issues. split; [done|]. lia.
  - intros r Hn [_ Hin]%elem_of_filter_issues. lia.
Qed.

(** *** The matcher *)

Section Matcher.

Implicit Types (s rest : string) (p : list node) (caps m : list string).

Lemma skip_lit_sound l s s' : skip_lit l s = Some s' -> s = l +:+ s'.
Proof.
  revert s. induction l as [|a l IH]; intros s; simpl.
  - by intros [= <-].
  - destruct s as [|b s]; [done|].
    destruct (Ascii.eqb_spec a b) as [->|]; [|done].
    by intros ->%IH.
Qed.

Lemma skip_lit_complete l s : skip_lit l (l +:+ s) = Some s.
Proof.
  induction l as [|a l IH]; [by destruct s|].
  rewrite append_cons. simpl. by rewrite Ascii.eqb_refl.
Qed.

Lemma occurs_inb_complete sub s : occurs_in sub s -> occurs_inb sub s = true.
Proof.
  intros (before & after & ->).
  induction before as [|a before IH].
  - rewrite append_nil_l. generalize (skip_lit_complete sub after).
    destruct (sub +:+ after); simpl; by intros ->.
  - rewrite append_cons. simpl. rewrite IH. by destruct (skip_lit _ _).
Qed.

Lemma grow_Some a r g t :
  grow a r = Some (g, t) -> exists g', g = String a g' /\ r = Some (g', t).
Proof. destruct r as [[g' t']|]; simpl; [|done]. intros [= <- <-]. eauto. Qed.

Lemma stop_Some r g t : stop r = Some (g, t) -> g = "" /\ r = Some t.
Proof. destruct r; simpl; [|done]. by intros [= <- <-]. Qed.

Section Repeat.

Variables (c : cls) (k : string -> option tail_match).

Lemma greedy_star_sound s g t :
  greedy_star c k s = Some (g, t) ->
  exists s', s = g +:+ s' /\ k s' = Some t /\ all_chars (in_cls c) g = true.
Proof.
  revert g. induction s as [|a s IH]; intros g; simpl.
  - intros [-> ?]%stop_Some. by exists "".
  - destruct (in_cls c a) eqn:Ha.
    + destruct (greedy_star c k s) as [[g' t']|].
      * intros [= <- <-]. destruct (IH g' eq_refl) as (s' & -> & ? & Hg).
        exists s'. simpl. by rewrite Ha, Hg.
      * intros [-> ?]%stop_Some. by exists (String a s).
    + intros [-> ?]%stop_Some. by exists (String a s).
Qed.

Lemma lazy_star_sound s g t :
  lazy_star c k s = Some (g, t) ->
  exists s', s = g +:+ s' /\ k s' = Some t /\ all_chars (in_cls c) g = true.
Proof.
  revert g. induction s as [|a s IH]; intros g; simpl.
  - destruct (k "") eqn:Hk; [|done]. intros [= <- <-]. by exists "".
  - destruct (k (String a s)) eqn:Hk.
    + intros [= <- <-]. by exists (String a s).
    + destruct (in_cls c a) eqn:Ha; [|done].
      intros (g' & -> & (s' & -> & ? & Hg)%IH)%grow_Some.
      exists s'. simpl. by rewrite Ha, Hg.
Qed.

Lemma repeat_sound q s g t :
  repeat q c k s = Some (g, t) ->
  exists s', s = g +:+ s' /\ k s' = Some t /\ all_chars (in_cls c) g = true
             /\ (q = Plus -> g <> "").
Proof.
  destruct q; simpl.
  - destruct s as [|a s]; simpl; [done|].
    destruct (in_cls c a) eqn:Ha; [|done].
    intros (g' & -> & (s' & -> & ? & Hg)%greedy_star_sound)%grow_Some.
    exists s'. simpl. by rewrite Ha, Hg.
  - intros (s' & ? & ? & ?)%lazy_star_sound. by exists s'.
Qed.

End Repeat.

(** A match covers the literals of the pattern with the groups in between,
    and leaves the rest of the input. *)
Lemma match_here_sound p s caps rest :
  match_here p s = Some (caps, rest) ->
  s = fill p caps +:+ rest /\ length caps = groups p.
Proof.
  revert s caps. induction p as [|[l|c q] p IH]; intros s caps; simpl.
  - by intros [= <- <-].
  - destruct (skip_lit l s) as [s'|] eqn:Hl; [|done].
    apply skip_lit_sound in Hl as ->. intros [-> ?]%IH.
    by rewrite append_assoc.
  - destruct (repeat q c (match_here p) s) as [[g [caps' rest']]|] eqn:Hr; [|done].
    intros [= <- <-].
    apply repeat_sound in Hr as (s' & -> & [-> Hlen]%IH & _).
    simpl. by rewrite append_assoc, Hlen.
Qed.

(** Every match reported by [finditer] is a match of the pattern at some
    position of the text. *)
Lemma finditer_from_sound p n s m :
  m ∈ finditer_from p n s ->
  exists before rest,
    s = before +:+ fill p m +:+ rest
    /\ match_here p (fill p m +:+ rest) = Some (m, rest).
Proof.
  revert n. induction s as [|a s IH]; intros n; simpl.
  - by intros ?%elem_of_nil.
  - assert (forall n', m ∈ finditer_from p n' s ->
        exists before rest, String a s = before +:+ fill p m +:+ rest
          /\ match_here p (fill p m +:+ rest) = Some (m, rest)) as Hnext.
    { intros n' (before & rest & -> & ?)%IH. by exists (String a before), rest. }
    destruct n as [|n]; [|by apply Hnext].
    destruct (match_here p (String a s)) as [[caps rest]|] eqn:Hm;
      [|by apply Hnext].
    intros [->|?]%elem_of_cons; [|by eapply Hnext].
    exists "", rest. destruct (match_here_sound _ _ _ _ Hm) as [Hs _].
    rewrite append_nil_l, <- Hs. done.
Qed.

(** Where the pattern matches nowhere, [finditer] finds nothing. *)
Lemma finditer_from_nil p n s :
  (forall before s', s = before +:+ s' -> match_here p s' = None) ->
  finditer_from p n s = [].
Proof.
  revert n. induction s as [|a s IH]; intros n Hno; [done|]. simpl.
  assert (forall n', finditer_from p n' s = []) as Hnext.
  { intros n'. apply IH. intros before s' ->.
    by apply (Hno (String a before)). }
  destruct n; [|done]. by rewrite (Hno "" (String a s)).
Qed.

Lemma collect_issues_elem maxd ms rs r :
  collect_issues maxd ms = Ok rs -> r ∈ rs ->
  exists m, m ∈ ms /\ issue_of_match maxd m = Ok r.
Proof.
  revert rs. induction ms as [|m ms IH]; intros rs; simpl.
  - intros [= <-] ?%elem_of_nil. done.
  - destruct (issue_of_match maxd m) as [r'|] eqn:Hm; [|done].
    destruct (collect_issues maxd ms) as [rs'|]; [|done].
    intros [= <-] [->|Hr]%elem_of_cons.
    + exists m. split; [left|done].
    + destruct (IH _ eq_refl Hr) as (m' & ? & ?). exists m'. split; [by right|done].
Qed.

(** A record of the parser comes from a match of [issue_pattern] in the
    document. *)
Lemma parse_issues_elem maxd doc rs r :
  parse_issues maxd doc = Ok rs -> r ∈ rs ->
  exists m before rest,
    issue_of_match maxd m = Ok r
    /\ doc = before +:+ fill issue_pattern m +:+ rest
    /\ match_here issue_pattern (fill issue_pattern m +:+ rest) = Some (m, rest).
Proof.
  intros Hp Hr. destruct (collect_issues_elem _ _ _ _ Hp Hr) as (m & Hm & ?).
  apply finditer_from_sound in Hm as (before & rest & ? & ?).
  by exists m, before, rest.
Qed.

End Matcher.

(** *** Parsing, then rendering *)

Lemma occurs_in_app sub before after : occurs_in sub (before +:+ sub +:+ after).
Proof. by exists before, after. Qed.

Lemma body_contents issue :
  occurs_in (description issue) (create_issue_body issue)
  /\ occurs_in (goals issue) (create_issue_body issue)
  /\ occurs_in (files issue) (create_issue_body issue)
  /\ occurs_in (acceptance issue) (create_issue_body issue).
Proof.
  unfold create_issue_body.
  set (d := description issue). set (g := goals issue).
  set (f := files issue). set (a := acceptance issue).
  repeat split.
  - exists ("## Description" +:+ nl +:+ nl). eexists. reflexivity.
  - exists ("## Description" +:+ nl +:+ nl +:+ d +:+ nl +:+ nl +:+
            "## Goals" +:+ nl +:+ nl).
    eexists. rewrite !append_assoc. reflexivity.
  - exists ("## Description" +:+ nl +:+ nl +:+ d +:+ nl +:+ nl +:+
            "## Goals" +:+ nl +:+ nl +:+ g +:+ nl +:+ nl +:+
            "## Files to modify" +:+ nl +:+ nl).
    eexists. rewrite !append_assoc. reflexivity.
  - exists ("## Description" +:+ nl +:+ nl +:+ d +:+ nl +:+ nl +:+
            "## Goals" +:+ nl +:+ nl +:+ g +:+ nl +:+ nl +:+
            "## Files to modify" +:+ nl +:+ nl +:+ f +:+ nl +:+ nl +:+
            "## Acceptance Criteria" +:+ nl +:+ nl).
    eexists. rewrite !append_assoc. reflexivity.
Qed.

(** The nine groups of a match of [issue_pattern]. *)
Lemma issue_match_groups m rest s :
  match_here issue_pattern s = Some (m, rest) ->
  exists num short ti d g f a ls e, m = [num; short; ti; d; g; f; a; ls; e].
Proof.
  intros [_ Hlen]%match_here_sound. simpl in Hlen.
  do 9 (destruct m as [|? m]; [done|]). destruct m; [|done].
  by repeat eexists.
Qed.

Lemma issue_of_match_fields maxd num short ti d g f a ls e r :
  issue_of_match maxd [num; short; ti; d; g; f; a; ls; e] = Ok r ->
  py_int maxd num = Some (number r)
  /\ short_title r = Str.strip short /\ title r = Str.strip ti
  /\ description r = Str.strip d /\ goals r = Str.strip g
  /\ files r = Str.strip f /\ acceptance r = Str.strip a
  /\ labels r = parse_labels ls /\ effort r = Str.strip e.
Proof.
  unfold issue_of_match, group. simpl.
  destruct (py_int maxd num); [|done]. by intros [= <-].
Qed.

(** C2, as stated, fails: an indented description is not found in the
    rendered body, which holds the text without its indentation. *)
Lemma indented_description_not_verbatim :
  finditer issue_pattern indented_doc =
    [["1"; "Docs"; "Fix the docs"; "  indented text"; "G"; "F"; "A"; "docs"; "1h"]]
  /\ parse_issues 4300 indented_doc = Ok [indented_record]
  /\ ~ occurs_in "  indented text" (create_issue_body indented_record).
Proof.
  split; [by vm_compute|]. split; [by vm_compute|].
  intros H%occurs_inb_complete. by vm_compute in H.
Qed.

(** *** The labels of a record *)

Lemma trim_of_no_comma piece l :
  trim_of piece l -> all_chars (is_not ",") piece = true ->
  all_chars (is_not ",") l = true.
Proof.
  intros (w1 & w2 & -> & _). rewrite !all_chars_app, !andb_true_iff. tauto.
Qed.

Lemma strip_nonempty_iff piece :
  Str.strip piece <> "" <-> all_chars isspace piece = false.
Proof. rewrite strip_empty_iff. by destruct (all_chars isspace piece). Qed.

(** C8, as stated, fails: the labels line [bug,,perf] gives an empty
    label. *)
Lemma empty_label_parsed :
  parse_issues 4300 empty_label_doc = Ok [empty_label_record]
  /\ "" ∈ labels empty_label_record.
Proof. split; [by vm_compute|]. right. left. Qed.

(** C8, amended.  The labels of a record of the parser are the
    comma-separated pieces of the labels line of its section block, each
    without the white space at its two ends: no label starts or ends with
    white space or contains a comma, and a label is empty exactly when its
    piece is empty or white space only.  So all the labels are non-empty
    exactly when every piece has a character that is not white space. *)
Theorem labels_trimmed_pieces
    (maxd : nat) (doc : string) (rs : list IssueRecord) (r : IssueRecord) :
  parse_issues maxd doc = Ok rs -> r ∈ rs ->
  exists num short ti d g f a ls e before rest,
    doc = before +:+ section_block num short ti d g f a ls e +:+ rest
    /\ Forall2 trim_of (Str.split "," ls) (labels r)
    /\ Forall (fun l => trimmed l /\ all_chars (is_not ",") l = true) (labels r)
    /\ (Forall (fun l => l <> "") (labels r)
        <-> Forall (fun piece => all_chars isspace piece = false)
                   (Str.split "," ls)).
Proof.
  intros Hp Hr.
  destruct (parse_issues_elem _ _ _ _ Hp Hr) as (m & before & rest & Hm & Hdoc & Hmatch).
  destruct (issue_match_groups _ _ _ Hmatch)
    as (num & short & ti & d & g & f & a & ls & e & ->).
  apply issue_of_match_fields in Hm as (_ & _ & _ & _ & _ & _ & _ & Hl & _).
  exists num, short, ti, d, g, f, a, ls, e, before, rest.
  rewrite Hl, parse_labels_pieces.
  split; [done|]. split; [apply Forall2_fmap_strip|]. split.
  - apply Forall_fmap. eapply Forall_impl; [apply (split_pieces ",")|].
    intros piece Hpiece. simpl. split.
    + by destruct (strip_spec piece) as (? & ? & _ & _ & _ & ?).
    + eauto using trim_of_no_comma, strip_trim_of.
  - rewrite Forall_fmap. apply Forall_iff. intros piece. simpl.
    apply strip_nonempty_iff.
Qed.

(** The amended statement at [empty_label_doc]. *)
Lemma labels_trimmed_pieces_witness :
  exists num short ti d g f a ls e before rest,
    empty_label_doc
      = before +:+ section_block num short ti d g f a ls e +:+ rest
    /\ Forall2 trim_of (Str.split "," ls) (labels empty_label_record)
    /\ Forall (fun l => trimmed l /\ all_chars (is_not ",") l = true)
              (labels empty_label_record)
    /\ (Forall (fun l => l <> "") (labels empty_label_record)
        <-> Forall (fun piece => all_chars isspace piece = false)
                   (Str.split "," ls)).
Proof.
  apply (labels_trimmed_pieces 4300 empty_label_doc [empty_label_record]).
  - by vm_compute.
  - by left.
Defined.

(** *** Runs *)

Section Traces.

Context {A B : Type}.
Implicit Types (P : event -> Prop) (t d : list event).

Lemma bind_unfold (m : M A) (f : A -> M B) t :
  (m ≫= f) t =
  match m t with
  | (t', Ok a) => f a t'
  | (t', Raise e) => (t', Raise e)
  end.
Proof. reflexivity. Qed.

Lemma bind_Ok (m : M A) (f : A -> M B) t t' a :
  m t = (t', Ok a) -> (m ≫= f) t = f a t'.
Proof. rewrite bind_unfold. by intros ->. Qed.

Lemma bind_Raise (m : M A) (f : A -> M B) t t' e :
  m t = (t', Raise e) -> (m ≫= f) t = (t', Raise e).
Proof. rewrite bind_unfold. by intros ->. Qed.

Lemma traces_ret P (Q : A -> Prop) a : Q a -> traces P Q (mret a).
Proof.
  intros Ha t. exists []. simpl. rewrite app_nil_r.
  repeat split; [constructor|]. by intros ? [= <-].
Qed.

Lemma traces_raise P (Q : A -> Prop) e : traces P Q (raise e).
Proof. intros t. exists []. simpl. rewrite app_nil_r. by repeat split. Qed.

Lemma traces_lift P (Q : A -> Prop) r :
  (forall a, r = Ok a -> Q a) -> traces P Q (lift r).
Proof. intros Hr t. exists []. simpl. rewrite app_nil_r. by repeat split. Qed.

Lemma traces_call P (Q : A -> Prop) ev answer :
  P ev -> (forall t a, answer t = Ok a -> Q a) -> traces P Q (call ev answer).
Proof.
  intros Hev Hans t. exists [ev]. simpl. repeat split; [by repeat constructor|].
  apply Hans.
Qed.

Lemma traces_bind P (Q : A -> Prop) (R : B -> Prop) (m : M A) (f : A -> M B) :
  traces P Q m -> (forall a, Q a -> traces P R (f a)) -> traces P R (m ≫= f).
Proof.
  intros Hm Hf t. rewrite bind_unfold.
  destruct (Hm t) as (d1 & Ht & Hd1 & Hq). destruct (m t) as [t1 [a|e]]; simpl in *.
  - subst t1. destruct (Hf a (Hq a eq_refl) (t ++ d1)) as (d2 & Ht2 & Hd2 & Hr).
    exists (d1 ++ d2). rewrite Ht2, <- (assoc_L (++)).
    split; [done|]. split; [by apply Forall_app|done].
  - exists d1. by repeat split.
Qed.

Lemma traces_try P (Q : A -> Prop) (body : M A) handler :
  traces P Q body -> (forall e, traces P Q (handler e)) ->
  traces P Q (try_except body handler).
Proof.
  intros Hb Hh t. unfold try_except.
  destruct (Hb t) as (d1 & Ht & Hd1 & Hq). destruct (body t) as [t1 [a|e]]; simpl in *.
  - exists d1. by repeat split.
  - destruct (is_Exception e); [|exists d1; by repeat split].
    subst t1. destruct (Hh e (t ++ d1)) as (d2 & Ht2 & Hd2 & Hr).
    exists (d1 ++ d2). rewrite Ht2, <- (assoc_L (++)).
    split; [done|]. split; [by apply Forall_app|done].
Qed.

End Traces.

Lemma traces_print P (Q : unit -> Prop) line :
  P (Print line) -> Q tt -> traces P Q (print line).
Proof.
  intros HP HQ t. exists [Print line]. simpl.
  repeat split; [by repeat constructor|]. by intros [] _.
Qed.

Lemma traces_for_each {A S} P (I : S -> Prop) (body : S -> A -> M S) l s :
  (forall s x, I s -> traces P I (body s x)) -> I s ->
  traces P I (for_each body l s).
Proof.
  intros Hbody. revert s. induction l as [|x l IH]; intros s Hs; simpl.
  - by apply traces_ret.
  - eapply traces_bind; [by apply Hbody|]. auto.
Qed.

Lemma traces_int_ P w s : traces P (fun _ => True) (int_ w s).
Proof.
  unfold int_. destruct (py_int _ s); [by apply traces_ret|apply traces_raise].
Qed.

Lemma traces_seq {A B} P (R : B -> Prop) (m : M A) (f : A -> M B) :
  traces P (fun _ => True) m -> (forall a, traces P R (f a)) ->
  traces P R (m ≫= f).
Proof. intros Hm Hf. eapply traces_bind; [exact Hm|auto]. Qed.

(** Straight-line code: one rule for each step. *)
Ltac traces_auto :=
  repeat first
    [ apply traces_seq; [|intros ?]
    | apply traces_print; [done|try done]
    | apply traces_ret; try done
    | apply traces_raise
    | apply traces_lift; done
    | apply traces_call; [done|done]
    | apply traces_int_ ].

Lemma read_config_traces w :
  traces local (fun cfg => dry_run cfg = dry_run_flag w) (read_config w).
Proof. unfold read_config. traces_auto. Qed.

Lemma load_issues_traces w cfg :
  traces local (fun _ => True) (load_issues w cfg).
Proof. unfold load_issues, parse_issues_file. traces_auto. Qed.

Lemma prologue_traces w :
  traces local (fun cf => dry_run cf.1 = dry_run_flag w) (prologue w).
Proof.
  unfold prologue.
  eapply traces_bind; [apply read_config_traces|intros cfg Hcfg].
  apply traces_seq; [apply load_issues_traces|intros fi].
  by apply traces_ret.
Qed.

Lemma process_issue_dry_traces w st issue :
  traces local (fun _ => True) (process_issue w true st issue).
Proof.
  unfold process_issue. destruct st as [existing_labels created_count].
  traces_auto.
Qed.

Lemma summary_traces dry n fi : traces local (fun _ => True) (summary dry n fi).
Proof. unfold summary. destruct dry; traces_auto. Qed.

Lemma dry_run_flag_default w :
  environ w "DRY_RUN" = None \/ environ w "DRY_RUN" = Some "true" ->
  dry_run_flag w = true.
Proof. unfold dry_run_flag, getenv. by intros [-> | ->]. Qed.

(** C1.  With [DRY_RUN] unset or equal to [true], no event of the run is a
    call to the tracker: the repository is not fetched, no labels are
    listed, no label and no issue is created.  Nothing is assumed about the
    bounds, the credentials, the document or the tracker. *)
Theorem dry_run_no_remote_call (w : world) :
  environ w "DRY_RUN" = None \/ environ w "DRY_RUN" = Some "true" ->
  Forall (fun ev => is_remote ev = false) (run w).1.
Proof.
  intros Hdry%dry_run_flag_default.
  cut (traces local (fun _ => True) (main w)).
  { intros Hm. destruct (Hm []) as (d & Ht & Hd & _).
    unfold run. rewrite Ht. exact Hd. }
  unfold main.
  eapply traces_bind; [apply read_config_traces|intros cfg Hcfg].
  rewrite Hcfg, Hdry. simpl.
  apply traces_seq; [apply load_issues_traces|intros fi].
  apply traces_seq; [by apply traces_ret|intros ex].
  apply traces_seq; [|intros st; apply summary_traces].
  apply traces_for_each; [|done]. intros. apply process_issue_dry_traces.
Qed.

(** C1 at a world without [DRY_RUN], on a document of two sections. *)
Lemma dry_run_no_remote_call_witness :
  environ (sample_world [] two_issue_doc) "DRY_RUN" = None
  /\ Forall (fun ev => is_remote ev = false)
            (run (sample_world [] two_issue_doc)).1.
Proof.
  split; [reflexivity|]. apply dry_run_no_remote_call. by left.
Defined.

(** *** The configuration *)

Lemma lower_char_cases (lo up a : ascii) :
  (lo, up) ∈ [("t", "T"); ("r", "R"); ("u", "U"); ("e", "E")]%char ->
  Str.lower_char a = lo <-> a = lo \/ a = up.
Proof.
  intros Hin.
  assert (Str.lower_char lo = lo /\ Str.lower_char up = lo) as [Hlo Hup].
  { repeat (apply elem_of_cons in Hin as [[= -> ->]|Hin]; [by vm_compute|]).
    by apply elem_of_nil in Hin. }
  split; [|by intros [-> | ->]].
  intros <-.
  repeat (apply elem_of_cons in Hin as [[= Hl' Hu']|Hin];
    [revert Hl' Hu'; destruct a as [[] [] [] [] [] [] [] []]; vm_compute;
     intros; (discriminate || auto)|]).
  by apply elem_of_nil in Hin.
Qed.

Lemma lower_true_iff v : Str.lower v = "true" <-> spells_true v.
Proof.
  split.
  - destruct v as [|c1 [|c2 [|c3 [|c4 [|? ?]]]]]; simpl; try done.
    intros [= H1 H2 H3 H4].
    exists c1, c2, c3, c4. split; [done|].
    rewrite <- (lower_char_cases "t" "T"), <- (lower_char_cases "r" "R"),
      <- (lower_char_cases "u" "U"), <- (lower_char_cases "e" "E")
      by (rewrite !elem_of_cons; tauto).
    done.
  - intros (c1 & c2 & c3 & c4 & -> & H1 & H2 & H3 & H4). simpl.
    apply (lower_char_cases "t" "T") in H1; [|rewrite !elem_of_cons; tauto].
    apply (lower_char_cases "r" "R") in H2; [|rewrite !elem_of_cons; tauto].
    apply (lower_char_cases "u" "U") in H3; [|rewrite !elem_of_cons; tauto].
    apply (lower_char_cases "e" "E") in H4; [|rewrite !elem_of_cons; tauto].
    by rewrite H1, H2, H3, H4.
Qed.

Lemma read_config_dry_run w t t' cfg :
  read_config w t = (t', Ok cfg) -> dry_run cfg = dry_run_flag w.
Proof.
  intros H. destruct (read_config_traces w t) as (_ & _ & _ & Hq).
  apply Hq. by rewrite H.
Qed.

(** C9.  The run is a dry run exactly when the lower-cased value of
    [DRY_RUN] (["true"] when unset) is ["true"], that is when the value is
    one of the spellings of [true] in upper or lower case letters; the flag
    of the configuration that [main] uses is this one.  [yes], [1], [True]
    followed by a space, the empty text and any other text select live
    mode; [TRUE] and [True] select the dry run. *)
Theorem dry_run_is_lowercase_true (w : world) :
  (dry_run_flag w = true <-> Str.lower (getenv w "DRY_RUN" "true") = "true")
  /\ (dry_run_flag w = true <->
      environ w "DRY_RUN" = None
      \/ exists v, environ w "DRY_RUN" = Some v /\ spells_true v)
  /\ (forall t t' cfg, read_config w t = (t', Ok cfg) ->
        dry_run cfg = dry_run_flag w)
  /\ Forall (fun v => Str.lower v <> "true" /\ ~ spells_true v)
            ["yes"; "1"; "True "; " true"; "false"; "0"; ""; "truth"]
  /\ Forall spells_true ["TRUE"; "True"; "true"; "tRuE"].
Proof.
  assert (dry_run_flag w = true
          <-> Str.lower (getenv w "DRY_RUN" "true") = "true") as Hflag.
  { unfold dry_run_flag. apply String.eqb_eq. }
  split; [done|]. split; [|split; [apply read_config_dry_run|split]].
  - rewrite Hflag, lower_true_iff. unfold getenv.
    destruct (environ w "DRY_RUN") as [v|].
    + split; [intros ?; right; by exists v|].
      by intros [|(? & [= <-] & ?)].
    + split; [by left|]. intros _. apply lower_true_iff. reflexivity.
  - repeat (constructor;
      [split; [|rewrite <- lower_true_iff]; by vm_compute|]).
    constructor.
  - repeat (constructor; [by apply lower_true_iff|]). constructor.
Qed.

(** *** Bounds that are not integers *)

Section IntLiteral.

Implicit Types (s body ws : string) (a : ascii) (st : int_state).

Lemma digit_not_space a : isdigit a = true -> int_space a = false.
Proof. by destruct a as [[] [] [] [] [] [] [] []]. Qed.

Lemma digit_not_underscore a : isdigit a = true -> Ascii.eqb a "_" = false.
Proof. by destruct a as [[] [] [] [] [] [] [] []]. Qed.

Lemma space_not_digit a : int_space a = true -> isdigit a = false.
Proof. by destruct a as [[] [] [] [] [] [] [] []]. Qed.

Lemma space_not_underscore a : int_space a = true -> Ascii.eqb a "_" = false.
Proof. by destruct a as [[] [] [] [] [] [] [] []]. Qed.

Lemma int_lskip_spec s :
  exists ws, s = ws +:+ int_lskip s /\ all_chars int_space ws = true.
Proof.
  induction s as [|a s (ws & Hs & Hws)]; [by exists ""|].
  simpl. destruct (int_space a) eqn:Ha.
  - exists (String a ws). rewrite append_cons, <- Hs. simpl. by rewrite Ha, Hws.
  - by exists "".
Qed.

Lemma int_lskip_app ws s :
  all_chars int_space ws = true -> int_lskip (ws +:+ s) = int_lskip s.
Proof.
  induction ws as [|a ws IH]; [done|]. simpl.
  intros [Ha Hws]%andb_true_iff. rewrite ?append_cons. simpl. rewrite Ha. auto.
Qed.

(** What the automaton has read when it accepts, by state. *)
Definition accepted_from (st : int_state) (s : string) (n : nat) : Prop :=
  match st with
  | IntStart | IntUnderscore =>
      exists body ws, s = body +:+ ws /\ digit_run body
        /\ all_chars int_space ws = true /\ n = digit_count body
  | IntDigit =>
      exists body ws, s = body +:+ ws /\ all_chars int_space ws = true
        /\ n = digit_count body
        /\ (body = "" \/ digit_run body
            \/ exists body', body = String "_" body' /\ digit_run body')
  | IntTrailing => all_chars int_space s = true /\ n = 0%nat
  end.

Lemma int_body_sound st acc cnt s v n :
  int_body st acc cnt s = Some (v, n) ->
  exists k, n = (cnt + k)%nat /\ accepted_from st s k.
Proof.
  revert st acc cnt. induction s as [|a s IH]; intros st acc cnt; simpl.
  - destruct st; intros [= <- <-]; exists 0%nat; (split; [lia|]); simpl.
    + exists "", "". repeat split; auto.
    + done.
  - destruct (isdigit a) eqn:Hd.
    + assert (forall st', int_body IntDigit (10 * acc + digit_value a) (S cnt) s
                = Some (v, n) ->
              st' <> IntTrailing ->
              exists k, n = (cnt + k)%nat /\ accepted_from st' (String a s) k)
        as Hdigit.
      { intros st' (k & -> & body & ws & -> & Hws & -> & Hbody)%IH Hst'.
        exists (S (digit_count body)). split; [lia|].
        assert (digit_run (String a body)) as Hrun.
        { destruct Hbody as [->|[?|(body' & -> & ?)]]; by constructor. }
        destruct st'; simpl; try done.
        - exists (String a body), ws. simpl. by rewrite Hd.
        - exists (String a body), ws. simpl. rewrite Hd. repeat split; auto.
        - exists (String a body), ws. simpl. by rewrite Hd. }
      destruct st; intros Hrun; (done || by apply Hdigit).
    + destruct (Ascii.eqb_spec a "_") as [->|Hu].
      * destruct st; try done.
        intros (k & -> & body & ws & -> & Hrun & Hws & ->)%IH.
        exists (digit_count body). split; [done|].
        exists (String "_" body), ws. simpl. repeat split; eauto.
      * destruct (int_space a) eqn:Hsp; [|done].
        destruct st; try done.
        -- intros (k & -> & Hs & ->)%IH. exists 0%nat. split; [lia|].
           exists "", (String a s). simpl. rewrite Hsp. repeat split; auto.
        -- intros (k & -> & Hs & ->)%IH. exists 0%nat. split; [lia|].
           simpl. by rewrite Hsp.
Qed.

Lemma int_body_trailing acc cnt ws :
  all_chars int_space ws = true ->
  int_body IntTrailing acc cnt ws = Some (acc, cnt)
  /\ int_body IntDigit acc cnt ws = Some (acc, cnt).
Proof.
  revert acc cnt. induction ws as [|a ws IH]; intros acc cnt; [done|]. simpl.
  intros [Ha Hws]%andb_true_iff.
  rewrite (space_not_digit _ Ha), (space_not_underscore _ Ha), Ha.
  split; by apply IH.
Qed.

Lemma int_body_complete body ws :
  digit_run body -> all_chars int_space ws = true ->
  forall st acc cnt, st <> IntTrailing ->
  exists v, int_body st acc cnt (body +:+ ws)
            = Some (v, (cnt + digit_count body)%nat).
Proof.
  intros Hrun Hws. induction Hrun as [a Ha|a s Ha _ IH|a s Ha _ IH];
    intros st acc cnt Hst; rewrite ?append_cons; simpl; rewrite Ha.
  - rewrite append_nil_l.
    destruct (int_body_trailing (10 * acc + digit_value a) (S cnt) ws Hws) as [_ Hd].
    exists (10 * acc + digit_value a).
    destruct st; try done; rewrite Hd; do 2 f_equal; lia.
  - destruct (IH IntDigit (10 * acc + digit_value a) (S cnt)) as [v Hv]; [done|].
    exists v. destruct st; try done; rewrite Hv; do 2 f_equal; lia.
  - destruct (IH IntUnderscore (10 * acc + digit_value a) (S cnt)) as [v Hv]; [done|].
    exists v. destruct st; try done; simpl; rewrite Hv; do 2 f_equal; lia.
Qed.

Lemma digit_run_head body : digit_run body -> exists a s, body = String a s /\ isdigit a = true.
Proof. destruct 1; eauto. Qed.

Lemma int_sign_other a r :
  a <> "-"%char -> a <> "+"%char -> int_sign (String a r) = (false, String a r).
Proof. by destruct a as [[] [] [] [] [] [] [] []]. Qed.

Lemma within_limit maxd n :
  (negb (maxd =? 0) && (maxd <? n))%nat = false <-> (maxd = 0 \/ n <= maxd)%nat.
Proof.
  rewrite andb_false_iff, negb_false_iff, Nat.eqb_eq, Nat.ltb_ge. tauto.
Qed.

(** [int] accepts exactly the texts of [int_literal]. *)
Lemma py_int_accepts maxd s : is_Some (py_int maxd s) <-> int_literal maxd s.
Proof.
  unfold py_int. split.
  - destruct (int_lskip_spec s) as (ws1 & Hs & Hws1).
    intros [v Hv].
    assert (exists sign, (sign = "" \/ sign = "+" \/ sign = "-")
              /\ int_lskip s = sign +:+ (int_sign (int_lskip s)).2)
      as (sign & Hsign & Hl).
    { destruct (int_lskip s) as [|a r]; [exists ""; auto|].
      destruct (Ascii.eqb_spec a "-") as [->|Hm]; [exists "-"; auto|].
      destruct (Ascii.eqb_spec a "+") as [->|Hp]; [exists "+"; auto|].
      exists "". rewrite int_sign_other by done. auto. }
    destruct (int_sign (int_lskip s)) as [neg body].
    destruct (int_body IntStart 0 0 body) as [[v' n]|] eqn:Hbody; [|done].
    destruct (negb (maxd =? 0) && (maxd <? n))%nat eqn:Hlim; [done|].
    apply int_body_sound in Hbody as (k & -> & body' & ws2 & -> & Hrun & Hws2 & ->).
    exists ws1, sign, body', ws2. rewrite Hs, Hl.
    apply within_limit in Hlim. repeat split; auto.
  - intros (ws1 & sign & body & ws2 & -> & Hws1 & Hws2 & Hsign & Hrun & Hlim).
    rewrite int_lskip_app by done.
    destruct (int_body_complete _ ws2 Hrun Hws2 IntStart 0 0%nat) as [v Hv]; [done|].
    apply (within_limit maxd (0 + digit_count body)) in Hlim.
    assert (int_lskip (sign +:+ body +:+ ws2) = sign +:+ body +:+ ws2
            /\ exists neg, int_sign (sign +:+ body +:+ ws2) = (neg, body +:+ ws2))
      as [-> [neg ->]].
    { destruct Hsign as [->|[->| ->]]; [|split; eauto..].
      destruct (digit_run_head _ Hrun) as (a & r & -> & Ha).
      rewrite append_nil_l, append_cons. simpl. rewrite (digit_not_space _ Ha).
      split; [done|]. exists false. apply int_sign_other; by intros ->. }
    by rewrite Hv, Hlim.
Qed.

Lemma py_int_rejects maxd s : ~ int_literal maxd s -> py_int maxd s = None.
Proof.
  rewrite <- py_int_accepts. destruct (py_int maxd s); [|done].
  intros []. eauto.
Qed.

End IntLiteral.

(** C10.  When the value of [START_ISSUE] or of [END_ISSUE] is not the
    text of a decimal integer (white space, an optional sign, digits with
    single underscores between them, white space; within the digit limit of
    the interpreter), the run ends with the [ValueError] of [int], uncaught,
    and with no event at all: nothing was printed and the document was not
    read.  This holds whatever [DRY_RUN] is. *)
Theorem invalid_bound_stops_before_reading (w : world) (s : string) :
  environ w "START_ISSUE" = Some s \/ environ w "END_ISSUE" = Some s ->
  ~ int_literal (int_max_str_digits w) s ->
  exists bad,
    ~ int_literal (int_max_str_digits w) bad
    /\ run w = ([], Raise (Error "ValueError" bad))
    /\ ReadFile issues_file ∉ (run w).1.
Proof.
  intros Hs Hbad%py_int_rejects.
  cut (exists bad, py_int (int_max_str_digits w) bad = None
                   /\ run w = ([], Raise (Error "ValueError" bad))).
  { intros (bad & Hnone & Hrun). exists bad. rewrite Hrun.
    split; [|split; [done|by intros ?%elem_of_nil]].
    intros [v Hv]%py_int_accepts. congruence. }
  unfold run, main. rewrite bind_unfold. unfold read_config.
  rewrite bind_unfold. unfold int_ at 1.
  destruct (py_int _ (getenv w "START_ISSUE" "1")) as [a|] eqn:Ha.
  - destruct Hs as [Hs|Hs].
    { unfold getenv in Ha. rewrite Hs in Ha. congruence. }
    exists s. split; [done|]. simpl. rewrite bind_unfold. unfold int_ at 1.
    unfold getenv. rewrite Hs. cbv beta iota. rewrite Hbad. done.
  - by exists (getenv w "START_ISSUE" "1").
Qed.

(** C10 in live mode with [END_ISSUE] set to [ten]. *)
Lemma invalid_bound_stops_before_reading_witness :
  environ world_with_bad_bound "END_ISSUE" = Some "ten"
  /\ ~ int_literal (int_max_str_digits world_with_bad_bound) "ten"
  /\ exists bad,
       ~ int_literal (int_max_str_digits world_with_bad_bound) bad
       /\ run world_with_bad_bound = ([], Raise (Error "ValueError" bad))
       /\ ReadFile issues_file ∉ (run world_with_bad_bound).1.
Proof.
  assert (~ int_literal (int_max_str_digits world_with_bad_bound) "ten") as Hten.
  { by intros [v Hv]%py_int_accepts. }
  split; [reflexivity|]. split; [exact Hten|].
  apply (invalid_bound_stops_before_reading world_with_bad_bound "ten");
    [by right|exact Hten].
Defined.

(** *** The phases of [main] *)

Lemma main_phases w t :
  main w t = (prologue w ≫= fun cf => epilogue w cf.1 cf.2) t.
Proof.
  unfold main, prologue, epilogue. rewrite !bind_unfold.
  destruct (read_config w t) as [t1 [cfg|e]]; [|done].
  rewrite !bind_unfold. by destruct (load_issues w cfg t1) as [t2 [fi|e]].
Qed.

Lemma read_config_Ok w t a b :
  py_int (int_max_str_digits w) (getenv w "START_ISSUE" "1") = Some a ->
  py_int (int_max_str_digits w) (getenv w "END_ISSUE" "20") = Some b ->
  read_config w t =
    (t ++ config_lines (dry_run_flag w) a b,
     Ok {| dry_run := dry_run_flag w; start_issue := a; end_issue := b |}).
Proof.
  intros Ha Hb. unfold read_config, int_. rewrite Ha, Hb.
  unfold config_lines, mbind, M_bind, mret, M_ret, print. simpl.
  by rewrite <- ?(assoc_L (++)).
Qed.

Lemma load_issues_Ok w cfg t doc issues :
  file_system w issues_file = Ok doc ->
  parse_issues (int_max_str_digits w) doc = Ok issues ->
  let kept := filter_issues (start_issue cfg) (end_issue cfg) issues in
  load_issues w cfg t =
    (t ++ load_lines (len issues) (len kept) (start_issue cfg) (end_issue cfg),
     Ok kept).
Proof.
  intros Hf Hp kept. unfold load_issues, parse_issues_file.
  unfold load_lines, mbind, M_bind, mret, M_ret, print, call, lift. cbv beta iota.
  rewrite Hf, Hp. cbv beta iota. by rewrite <- ?(assoc_L (++)).
Qed.

Lemma connect_Ok w t tok repo names :
  environ w "GITHUB_TOKEN" = Some tok -> tok <> "" ->
  environ w "GITHUB_REPOSITORY" = Some repo -> repo <> "" ->
  get_repo w t tok repo = Ok tt ->
  get_labels w (t ++ [GetRepo tok repo]) = Ok names ->
  connect w t = (t ++ [GetRepo tok repo; GetLabels], Ok (list_to_set names)).
Proof.
  intros Ht Htok Hr Hrepo Hget Hlab. unfold connect. rewrite Ht, Hr.
  destruct tok as [|c tok]; [done|]. destruct repo as [|c' repo]; [done|].
  unfold mbind, M_bind, mret, M_ret, call. cbv beta iota.
  rewrite Hget. cbv beta iota. rewrite Hlab. by rewrite <- ?(assoc_L (++)).
Qed.

Lemma connect_missing w t :
  environ w "GITHUB_TOKEN" = None \/ environ w "GITHUB_REPOSITORY" = None ->
  exists name,
    name ∈ ["GITHUB_TOKEN"; "GITHUB_REPOSITORY"]
    /\ connect w t =
       (t ++ [Print ("ERROR: " +:+ name +:+ " environment variable not set")],
        Raise (SystemExit 1)).
Proof.
  intros Hmiss. unfold connect.
  destruct (environ w "GITHUB_TOKEN") as [[|c tok]|] eqn:Ht.
  - exists "GITHUB_TOKEN". split; [by left|done].
  - destruct Hmiss as [?| ->]; [done|].
    exists "GITHUB_REPOSITORY". split; [right; by left|done].
  - exists "GITHUB_TOKEN". split; [by left|done].
Qed.

(** C6.  In live mode with [GITHUB_TOKEN] or [GITHUB_REPOSITORY] absent,
    the run never completes normally and makes no call to the tracker.
    When the configuration is read and the document is parsed and filtered
    (the prologue, lines 74 to 93), the only further event is the line
    naming the missing variable and the run ends in [sys.exit(1)]: no record
    is processed.  Otherwise the run ended in the prologue with its
    uncaught exception. *)
Theorem missing_credentials_fatal (w : world) :
  dry_run_flag w = false ->
  environ w "GITHUB_TOKEN" = None \/ environ w "GITHUB_REPOSITORY" = None ->
  Forall (fun ev => is_remote ev = false) (run w).1
  /\ (exists e, (run w).2 = Raise e)
  /\ match prologue w [] with
     | (t0, Ok _) =>
         exists name,
           name ∈ ["GITHUB_TOKEN"; "GITHUB_REPOSITORY"]
           /\ run w =
              (t0 ++ [Print ("ERROR: " +:+ name +:+ " environment variable not set")],
               Raise (SystemExit 1))
     | (t0, Raise e) => run w = (t0, Raise e)
     end.
Proof.
  intros Hlive Hmiss. unfold run. rewrite main_phases, bind_unfold.
  destruct (prologue_traces w []) as (d & Ht & Hd & Hq).
  destruct (prologue w []) as [t0 [[cfg fi]|e]]; simpl in *; subst t0.
  - specialize (Hq _ eq_refl). simpl in Hq.
    unfold epilogue. rewrite Hq, Hlive. simpl.
    destruct (connect_missing w d Hmiss) as (name & Hname & Hc).
    rewrite (bind_Raise _ _ _ _ _ Hc). simpl. repeat split.
    + apply Forall_app. split; [done|]. by repeat constructor.
    + eauto.
    + eauto.
  - repeat split; eauto.
Qed.

(** C6 at a live world that has a token and no repository. *)
Lemma missing_credentials_fatal_witness :
  dry_run_flag world_without_repository = false
  /\ environ world_without_repository "GITHUB_REPOSITORY" = None
  /\ run world_without_repository =
       (config_lines false 1 20 ++ load_lines 2 2 1 20
          ++ [Print "ERROR: GITHUB_REPOSITORY environment variable not set"],
        Raise (SystemExit 1))
  /\ Forall (fun ev => is_remote ev = false) (run world_without_repository).1.
Proof.
  destruct (missing_credentials_fatal world_without_repository)
    as (Hlocal & _); [reflexivity|by right|].
  split; [reflexivity|]. split; [reflexivity|].
  split; [by vm_compute|exact Hlocal].
Defined.

(** *** A document without sections *)

Lemma no_sectionb_unfold doc :
  no_sectionb doc =
  match match_here issue_pattern doc with
  | Some _ => false
  | None =>
      match doc with
      | String _ doc' => no_sectionb doc'
      | "" => true
      end
  end.
Proof. by destruct doc. Qed.

Lemma no_sectionb_sound doc : no_sectionb doc = true -> no_section doc.
Proof.
  induction doc as [|c doc IH]; rewrite no_sectionb_unfold.
  - destruct (match_here issue_pattern "") eqn:Hm; [done|].
    intros _ [|c before] s; [|done]. rewrite append_nil_l. by intros <-.
  - destruct (match_here issue_pattern (String c doc)) eqn:Hm; [done|].
    intros Hb [|c' before] s.
    + rewrite append_nil_l. by intros <-.
    + rewrite append_cons. intros [= _ Hdoc]. by apply (IH Hb before).
Qed.

Lemma no_section_parse maxd doc : no_section doc -> parse_issues maxd doc = Ok [].
Proof.
  intros Hno. unfold parse_issues, finditer.
  by rewrite (finditer_from_nil _ _ _ Hno).
Qed.

Lemma prologue_Ok w doc issues a b :
  py_int (int_max_str_digits w) (getenv w "START_ISSUE" "1") = Some a ->
  py_int (int_max_str_digits w) (getenv w "END_ISSUE" "20") = Some b ->
  file_system w issues_file = Ok doc ->
  parse_issues (int_max_str_digits w) doc = Ok issues ->
  let kept := filter_issues a b issues in
  prologue w [] =
    (config_lines (dry_run_flag w) a b ++ load_lines (len issues) (len kept) a b,
     Ok ({| dry_run := dry_run_flag w; start_issue := a; end_issue := b |}, kept)).
Proof.
  intros Ha Hb Hf Hp kept. unfold prologue.
  rewrite (bind_Ok _ _ _ _ _ (read_config_Ok w [] a b Ha Hb)).
  by rewrite (bind_Ok _ _ _ _ _ (load_issues_Ok w _ _ doc issues Hf Hp)).
Qed.

(** C7.  On a document in which [issue_pattern] matches nowhere the parser
    returns the empty list.  The runner, when it reads that document and
    both bounds are integers, completes normally: in a dry run it prints
    that 0 issues were parsed and 0 are to be created, and that no issue
    was created; in live mode, with both credentials present and the
    repository and its labels fetched, it makes no further call and prints
    that 0 of 0 issues were created. *)
Theorem no_section_no_issue (w : world) (doc : string) (a b : Z) :
  no_section doc ->
  file_system w issues_file = Ok doc ->
  py_int (int_max_str_digits w) (getenv w "START_ISSUE" "1") = Some a ->
  py_int (int_max_str_digits w) (getenv w "END_ISSUE" "20") = Some b ->
  (forall maxd, parse_issues maxd doc = Ok [])
  /\ (dry_run_flag w = true ->
      run w =
        (config_lines true a b ++ load_lines 0 0 a b
           ++ [ Print "Done!";
                Print (nl +:+ "This was a DRY RUN. No issues were created.");
                Print "To create issues, run this workflow again with dry_run=false" ],
         Ok tt))
  /\ (dry_run_flag w = false ->
      forall tok repo names,
        environ w "GITHUB_TOKEN" = Some tok -> tok <> "" ->
        environ w "GITHUB_REPOSITORY" = Some repo -> repo <> "" ->
        (forall h, get_repo w h tok repo = Ok tt) ->
        (forall h, get_labels w h = Ok names) ->
        run w =
          (config_lines false a b ++ load_lines 0 0 a b
             ++ [ GetRepo tok repo; GetLabels;
                  Print "Done!";
                  Print (nl +:+ "✓ Successfully created 0 of 0 issues") ],
           Ok tt)).
Proof.
  intros Hno Hf Ha Hb.
  split; [intros maxd; by apply no_section_parse|].
  assert (prologue w [] =
    (config_lines (dry_run_flag w) a b ++ load_lines 0 0 a b,
     Ok ({| dry_run := dry_run_flag w; start_issue := a; end_issue := b |}, [])))
    as Hpro.
  { apply (prologue_Ok w doc []); auto using no_section_parse. }
  split.
  - intros Hdry. unfold run. rewrite main_phases, (bind_Ok _ _ _ _ _ Hpro).
    rewrite Hdry. unfold epilogue. simpl.
    unfold summary, mbind, M_bind, mret, M_ret, print. simpl.
    by rewrite <- ?(assoc_L (++)).
  - intros Hlive tok repo names Ht Htok Hr Hrepo Hget Hlab.
    unfold run. rewrite main_phases, (bind_Ok _ _ _ _ _ Hpro).
    rewrite Hlive. unfold epilogue. simpl.
    rewrite (bind_Ok _ _ _ _ _
      (connect_Ok w _ tok repo names Ht Htok Hr Hrepo (Hget _) (Hlab _))).
    unfold summary, mbind, M_bind, mret, M_ret, print. simpl.
    by rewrite <- ?(assoc_L (++)).
Qed.

(** C7 at a document of two lines, in a dry run and in live mode. *)
Lemma no_section_no_issue_witness :
  no_section no_issue_doc
  /\ (forall maxd, parse_issues maxd no_issue_doc = Ok [])
  /\ run (sample_world [] no_issue_doc) =
       (config_lines true 1 20 ++ load_lines 0 0 1 20
          ++ [ Print "Done!";
               Print (nl +:+ "This was a DRY RUN. No issues were created.");
               Print "To create issues, run this workflow again with dry_run=false" ],
        Ok tt)
  /\ run (sample_world live_vars no_issue_doc) =
       (config_lines false 1 20 ++ load_lines 0 0 1 20
          ++ [ GetRepo "t0ken" "o/r"; GetLabels;
               Print "Done!";
               Print (nl +:+ "✓ Successfully created 0 of 0 issues") ],
        Ok tt).
Proof.
  assert (no_section no_issue_doc) as Hno by (by apply no_sectionb_sound).
  split; [done|].
  destruct (no_section_no_issue (sample_world [] no_issue_doc) no_issue_doc 1 20)
    as (Hparse & Hdry & _); [done..|].
  destruct (no_section_no_issue (sample_world live_vars no_issue_doc) no_issue_doc 1 20)
    as (_ & _ & Hlive); [done..|].
  split; [done|]. split; [by apply Hdry|].
  by apply (Hlive eq_refl "t0ken" "o/r" ["enhancement"]).
Defined.

(** *** The loop over the issues, in live mode *)

Section LiveLoop.

Variable w : world.

Lemma created_in_app before d1 d2 :
  created_in w before (d1 ++ d2) =
  created_in w before d1 + created_in w (before ++ d1) d2.
Proof.
  revert before. induction d1 as [|ev d1 IH]; intros before; simpl.
  - by rewrite app_nil_r.
  - rewrite IH, <- (assoc_L (++)). simpl. lia.
Qed.

Lemma created_in_quiet before d : Forall quiet d -> created_in w before d = 0.
Proof.
  intros Hd. revert before. induction Hd as [|ev d Hev _ IH]; intros before; simpl.
  - done.
  - rewrite IH. by destruct ev.
Qed.

Lemma attempted_app d1 d2 : attempted (d1 ++ d2) = attempted d1 + attempted d2.
Proof. induction d1 as [|ev d1 IH]; simpl; [done|]. rewrite IH. lia. Qed.

Lemma attempted_quiet d : Forall quiet d -> attempted d = 0.
Proof. induction 1 as [|ev d Hev _ IH]; simpl; [done|]. by rewrite Hev, IH. Qed.

Lemma local_quiet d : Forall local d -> Forall quiet d.
Proof. intros Hd. eapply Forall_impl; [exact Hd|]. by intros []. Qed.

Lemma ensure_label_traces existing label :
  traces quiet (fun _ => True) (ensure_label w existing label).
Proof.
  unfold ensure_label. destruct (decide _); traces_auto.
Qed.

Lemma connect_traces : traces quiet (fun _ => True) (connect w).
Proof.
  unfold connect.
  destruct (environ w "GITHUB_TOKEN") as [[|c tok]|]; [traces_auto| |traces_auto].
  destruct (environ w "GITHUB_REPOSITORY") as [[|c' repo]|]; traces_auto.
Qed.

Lemma print_bind {B} line (f : unit -> M B) t :
  (print line ≫= f) t = f tt (t ++ [Print line]).
Proof. reflexivity. Qed.

Lemma call_bind {A B} ev answer (f : A -> M B) t :
  (call ev answer ≫= f) t =
  match answer t with
  | Ok a => f a (t ++ [ev])
  | Raise e => (t ++ [ev], Raise e)
  end.
Proof. rewrite bind_unfold. unfold call. by destruct (answer t). Qed.

(** One record in live mode, step by step. *)
Lemma process_issue_live existing c issue t t2 r2 :
  for_each (ensure_label w) (labels issue) existing
           (t ++ issue_header false issue) = (t2, r2) ->
  process_issue w false (existing, c) issue t =
  match r2 with
  | Raise e => (t2, Raise e)
  | Ok existing' =>
      match create_issue w t2 (title issue) (create_issue_body issue)
                         (labels issue) with
      | Ok (n, url) =>
          (t2 ++ [ create_call issue;
                   Print ("  ✓ Created issue #" +:+ pretty n +:+ ": " +:+ url);
                   Print "" ],
           Ok (existing', c + 1))
      | Raise e =>
          if is_Exception e then
            (t2 ++ [ create_call issue;
                     Print ("  ✗ Error creating issue: " +:+ exn_str e);
                     Print "" ],
             Ok (existing', c))
          else (t2 ++ [create_call issue], Raise e)
      end
  end.
Proof.
  intros Hlabels. unfold process_issue. cbv beta iota zeta.
  rewrite !print_bind, <- !(assoc_L (++)).
  change ([?a] ++ [?b] ++ [?c]) with [a; b; c].
  change (t ++ _) with (t ++ issue_header false issue).
  rewrite bind_unfold, Hlabels. destruct r2 as [existing'|e]; [|done].
  rewrite bind_unfold. unfold try_except. rewrite call_bind.
  fold (create_call issue).
  destruct (create_issue w t2 _ _ _) as [[n url]|e].
  - rewrite !print_bind, <- !(assoc_L (++)). reflexivity.
  - destruct (is_Exception e); [|done].
    rewrite !print_bind, <- !(assoc_L (++)). reflexivity.
Qed.

Lemma process_issue_live_count existing c issue t t1 existing1 c1 :
  process_issue w false (existing, c) issue t = (t1, Ok (existing1, c1)) ->
  exists d, t1 = t ++ d /\ c1 = c + created_in w t d /\ attempted d = 1.
Proof.
  destruct (traces_for_each quiet (fun _ => True) (ensure_label w)
              (labels issue) existing
              (fun s x _ => ensure_label_traces s x) I
              (t ++ issue_header false issue)) as (d2 & Ht2 & Hd2 & _).
  destruct (for_each (ensure_label w) _ _ _) as [t2 r2] eqn:Hlabels.
  rewrite (process_issue_live _ _ _ _ _ _ Hlabels).
  simpl in Ht2. subst t2.
  assert (Forall quiet (issue_header false issue ++ d2)) as Hquiet.
  { apply Forall_app. split; [by repeat constructor|done]. }
  destruct r2 as [existing'|e]; [|done].
  destruct (create_issue w _ _ _ _) as [[n url]|e] eqn:Hc.
  - intros [= <- <- <-].
    exists ((issue_header false issue ++ d2)
            ++ [ create_call issue;
                 Print ("  ✓ Created issue #" +:+ pretty n +:+ ": " +:+ url);
                 Print "" ]).
    rewrite !(assoc_L (++)). split; [done|].
    rewrite created_in_app, attempted_app.
    rewrite (created_in_quiet _ _ Hquiet), (attempted_quiet _ Hquiet).
    rewrite (assoc_L (++) t). simpl. by rewrite Hc.
  - destruct (is_Exception e); [|done].
    intros [= <- <- <-].
    exists ((issue_header false issue ++ d2)
            ++ [ create_call issue;
                 Print ("  ✗ Error creating issue: " +:+ exn_str e);
                 Print "" ]).
    rewrite !(assoc_L (++)). split; [done|].
    rewrite created_in_app, attempted_app.
    rewrite (created_in_quiet _ _ Hquiet), (attempted_quiet _ Hquiet).
    rewrite (assoc_L (++) t). simpl. rewrite Hc. split; [lia|done].
Qed.

Lemma live_loop_count l existing c t t' existing' c' :
  for_each (process_issue w false) l (existing, c) t = (t', Ok (existing', c')) ->
  exists d, t' = t ++ d /\ c' = c + created_in w t d /\ attempted d = len l.
Proof.
  revert existing c t.
  induction l as [|issue l IH]; intros existing c t; cbn [for_each].
  - intros [= <- <- <-]. exists []. rewrite app_nil_r. simpl.
    split; [done|]. split; [lia|done].
  - rewrite bind_unfold.
    destruct (process_issue w false (existing, c) issue t)
      as [t1 [[existing1 c1]|e]] eqn:Hstep; [|done].
    apply process_issue_live_count in Hstep as (d1 & -> & -> & Hone).
    intros (d2 & -> & -> & Hrest)%IH.
    exists (d1 ++ d2). rewrite (assoc_L (++)). split; [done|].
    rewrite created_in_app, attempted_app, Hone, Hrest. unfold len. simpl. lia.
Qed.

End LiveLoop.

(** The summary of a live run that completes: the issues created, of the
    issues filtered. *)
Lemma live_summary w t :
  dry_run_flag w = false -> run w = (t, Ok tt) ->
  exists cfg filtered_issues t0,
    prologue w [] = (t0, Ok (cfg, filtered_issues))
    /\ attempted t = len filtered_issues
    /\ last t = Some (summary_line (created_in w [] t) (len filtered_issues)).
Proof.
  intros Hlive. unfold run. rewrite main_phases, bind_unfold.
  destruct (prologue_traces w []) as (d0 & Ht0 & Hd0 & Hq).
  destruct (prologue w []) as [t0 [[cfg fi]|e]]; [|done].
  simpl in Ht0, Hq |- *. subst t0. specialize (Hq _ eq_refl). simpl in Hq.
  unfold epilogue. rewrite Hq, Hlive. simpl. rewrite bind_unfold.
  destruct (connect_traces w d0) as (dc & Htc & Hdc & _).
  destruct (connect w d0) as [t1 [existing|e]]; [|done].
  simpl in Htc. subst t1. rewrite bind_unfold.
  destruct (for_each _ fi _ _) as [t2 [[existing' c']|e]] eqn:Hloop; [|done].
  apply live_loop_count in Hloop as (dl & -> & -> & Hatt).
  unfold summary, mbind, M_bind, print. simpl. intros [= <-].
  exists cfg, fi, d0. split; [done|].
  apply local_quiet in Hd0.
  split.
  - rewrite !attempted_app, (attempted_quiet _ Hd0), (attempted_quiet _ Hdc), Hatt.
    simpl. lia.
  - rewrite last_snoc. unfold summary_line.
    match goal with
    | |- context [created_in w [] ?T] =>
        assert (created_in w [] T = 0 + created_in w (d0 ++ dc) dl) as ->
    end; [|done].
    rewrite !created_in_app. simpl.
    rewrite (created_in_quiet _ _ _ Hd0), (created_in_quiet _ _ _ Hdc). lia.
Qed.

(** C5.  In live mode, when the call that creates the issue of a record
    raises an [Exception], the run goes on with the next record: the error
    is printed after the call, and the loop continues on the remaining
    records with the same count.  A run that completes ends with the
    summary line, which gives the number of calls the tracker answered with
    a new issue and the number of filtered records (one call was made for
    each). *)
Theorem creation_error_is_logged_and_skipped (w : world) :
  dry_run_flag w = false ->
  (forall issue rest existing c t t2 existing' e,
     for_each (ensure_label w) (labels issue) existing
              (t ++ issue_header false issue) = (t2, Ok existing') ->
     create_issue w t2 (title issue) (create_issue_body issue) (labels issue)
       = Raise e ->
     is_Exception e = true ->
     for_each (process_issue w false) (issue :: rest) (existing, c) t =
     for_each (process_issue w false) rest (existing', c)
       (t2 ++ [ create_call issue;
                Print ("  ✗ Error creating issue: " +:+ exn_str e);
                Print "" ]))
  /\ (forall t, run w = (t, Ok tt) ->
      exists cfg filtered_issues t0,
        prologue w [] = (t0, Ok (cfg, filtered_issues))
        /\ attempted t = len filtered_issues
        /\ last t = Some (summary_line (created_in w [] t) (len filtered_issues))).
Proof.
  intros Hlive. split; [|intros t; by apply live_summary].
  intros issue rest existing c t t2 existing' e Hlabels Hcreate Hexn.
  cbn [for_each]. rewrite bind_unfold.
  by rewrite (process_issue_live w _ c _ _ _ _ Hlabels), Hcreate, Hexn.
Qed.

(** C5 on a document of two sections, in live mode, with a tracker that
    refuses the first issue: the second one is created and the summary
    reads 1 of 2. *)
Lemma creation_error_is_logged_and_skipped_witness :
  dry_run_flag live_world = false
  /\ (exists t, run live_world = (t, Ok tt)
        /\ attempted t = 2 /\ created_in live_world [] t = 1
        /\ Print "  ✗ Error creating issue: 422 Validation Failed" ∈ t
        /\ Print "  ✓ Created issue #41: https://github.com/o/r/issues/41" ∈ t
        /\ last t = Some (Print (nl +:+ "✓ Successfully created 1 of 2 issues")))
  /\ (forall t, run live_world = (t, Ok tt) ->
      exists cfg filtered_issues t0,
        prologue live_world [] = (t0, Ok (cfg, filtered_issues))
        /\ attempted t = len filtered_issues
        /\ last t = Some (summary_line (created_in live_world [] t)
                                       (len filtered_issues))).
Proof.
  destruct (creation_error_is_logged_and_skipped live_world) as (_ & Hsummary);
    [reflexivity|].
  split; [reflexivity|]. split; [|exact Hsummary].
  eexists. split; [by vm_compute|]. split; [by vm_compute|].
  split; [by vm_compute|].
  split; [do 17 right; by left|]. split; [do 25 right; by left|by vm_compute].
Defined.

(** *** Sections that are parsed whole *)

Section Completeness.

Implicit Types (s x rest : string) (k : string -> option tail_match).

Lemma greedy_star_complete c k x s t :
  all_chars (in_cls c) x = true -> stops c s -> k s = Some t ->
  greedy_star c k (x +:+ s) = Some (x, t).
Proof.
  intros Hx Hs Hk. induction x as [|a x IH].
  - rewrite append_nil_l. destruct s as [|b s]; simpl in *; by rewrite ?Hs, Hk.
  - simpl in Hx. apply andb_true_iff in Hx as [Ha Hx].
    rewrite append_cons. simpl. by rewrite Ha, (IH Hx).
Qed.

Lemma greedy_plus_complete c k x s t :
  x <> "" -> all_chars (in_cls c) x = true -> stops c s -> k s = Some t ->
  greedy_plus c k (x +:+ s) = Some (x, t).
Proof.
  intros Hne Hx Hs Hk. destruct x as [|a x]; [done|].
  simpl in Hx. apply andb_true_iff in Hx as [Ha Hx].
  rewrite append_cons. simpl. by rewrite Ha, (greedy_star_complete _ _ _ _ t).
Qed.

Lemma lazy_star_complete c k x s t :
  all_chars (in_cls c) x = true ->
  (forall x1 x2, x = x1 +:+ x2 -> x2 <> "" -> k (x2 +:+ s) = None) ->
  k s = Some t ->
  lazy_star c k (x +:+ s) = Some (x, t).
Proof.
  intros Hx Hno Hk. induction x as [|a x IH].
  - rewrite append_nil_l. destruct s; simpl; by rewrite Hk.
  - simpl in Hx. apply andb_true_iff in Hx as [Ha Hx].
    rewrite append_cons. simpl.
    rewrite <- (append_cons a x s), (Hno "" (String a x)) by done.
    rewrite Ha, IH; [done..|]. intros x1 x2 -> Hx2.
    by apply (Hno (String a x1)).
Qed.

(** The matcher finds the captures that fit. *)
Lemma match_here_complete p caps rest :
  fits p caps rest -> match_here p (fill p caps +:+ rest) = Some (caps, rest).
Proof.
  revert caps. induction p as [|[l|c q] p IH]; intros caps.
  - destruct caps; [done|by intros []].
  - cbn [fits fill match_here]. intros Hfit.
    by rewrite append_assoc, skip_lit_complete, IH.
  - destruct caps as [|x caps]; [by destruct q|].
    cbn [fill match_here]. rewrite append_assoc.
    destruct q; cbn [fits repeat].
    + intros (Hne & Hx & Hstop & Hfit).
      by rewrite (greedy_plus_complete c _ x _ (caps, rest)); auto.
    + intros (Hx & Hno & Hfit).
      by rewrite (lazy_star_complete c _ x _ (caps, rest)); auto.
Qed.

Lemma no_blank_line_suffix x1 x2 :
  no_blank_line (x1 +:+ x2) = true -> no_blank_line x2 = true.
Proof.
  induction x1 as [|a x1 IH]; [done|]. rewrite append_cons.
  intros H. apply IH. revert H. simpl.
  destruct (Ascii.eqb_spec a "010") as [->|Hne].
  - by destruct (x1 +:+ x2) as [|[[] [] [] [] [] [] [] []] ?].
  - destruct a as [[] [] [] [] [] [] [] []]; try done.
Qed.

(** A literal that opens with a blank line does not match inside such a
    text, nor across its end. *)
Lemma blank_literal_not_inside x l s :
  x <> "" -> no_blank_line x = true ->
  skip_lit (String "010" (String "010" l)) (x +:+ String "010" s) = None.
Proof.
  destruct x as [|a x]; [done|]. intros _.
  rewrite append_cons. cbn [skip_lit].
  destruct (Ascii.eqb_spec "010" a) as [<-|]; [|done].
  destruct x as [|b x]; [done|]. rewrite append_cons. cbn [skip_lit].
  destruct (Ascii.eqb_spec "010" b) as [<-|]; done.
Qed.

Lemma lazy_fits_before_blank_literal l p caps rest x :
  no_blank_line x = true ->
  forall x1 x2, x = x1 +:+ x2 -> x2 <> "" ->
    match_here (Lit (String "010" (String "010" l)) :: p)
      (x2 +:+ fill (Lit (String "010" (String "010" l)) :: p) caps +:+ rest)
    = None.
Proof.
  intros Hx x1 x2 -> Hx2. cbn [match_here fill].
  rewrite !append_cons.
  by rewrite blank_literal_not_inside by eauto using no_blank_line_suffix.
Qed.

Lemma all_chars_any x : all_chars (in_cls AnyChar) x = true.
Proof. induction x; simpl; auto. Qed.

(** A section whose number is a run of digits, whose one-line fields have
    no newline and whose free-form texts have no blank line, followed by the
    end of the text or by a newline, is matched whole, field by field. *)
Lemma section_block_matched num short ti d g f a ls e rest :
  num <> "" -> all_chars isdigit num = true ->
  one_line short -> one_line ti -> one_line ls -> one_line e ->
  no_blank_line d = true -> no_blank_line g = true ->
  no_blank_line f = true -> no_blank_line a = true ->
  stops NotNewline rest ->
  match_here issue_pattern (section_block num short ti d g f a ls e +:+ rest)
  = Some ([num; short; ti; d; g; f; a; ls; e], rest).
Proof.
  intros Hnum Hdig [Hs1 Hs2] [Ht1 Ht2] [Hl1 Hl2] [He1 He2] Hd Hg Hf Ha Hrest.
  apply match_here_complete. unfold issue_pattern. cbn [fits].
  repeat match goal with
  | |- _ /\ _ => split
  | |- all_chars (in_cls AnyChar) _ = true => apply all_chars_any
  | |- forall x1 x2, _ = x1 +:+ x2 -> _ =>
      by apply lazy_fits_before_blank_literal
  | |- stops _ (fill [] _ +:+ _) => exact Hrest
  | |- stops _ _ => reflexivity
  | |- _ => done
  end.
Qed.

End Completeness.

Section SectionParsed.

Implicit Types (s m rest : string) (p : list node).

Lemma finditer_from_skip p m rest :
  finditer_from p (String.length m) (m +:+ rest) = finditer_from p 0 rest.
Proof.
  induction m as [|a m IH]; [|by rewrite append_cons].
  rewrite append_nil_l. by destruct rest.
Qed.

Lemma append_length m rest :
  String.length (m +:+ rest) = (String.length m + String.length rest)%nat.
Proof.
  induction m as [|a m IH]; [done|]. rewrite append_cons. simpl. by rewrite IH.
Qed.

Lemma append_length_minus m rest :
  (String.length (m +:+ rest) - String.length rest)%nat = String.length m.
Proof. rewrite append_length. lia. Qed.

(** After a match, the search goes on in the rest of the text. *)
Lemma finditer_match p a m rest caps :
  match_here p (String a m +:+ rest) = Some (caps, rest) ->
  finditer p (String a m +:+ rest) = caps :: finditer p rest.
Proof.
  intros Hm. unfold finditer. rewrite append_cons in *.
  cbn [finditer_from]. rewrite Hm. f_equal.
  rewrite <- (finditer_from_skip p m rest). f_equal.
  rewrite <- (append_cons a m rest), append_length_minus. simpl. lia.
Qed.

(** A document made of one well-formed section gives one record, whose
    fields are those of the section without the white space at their
    ends. *)
Lemma section_block_parsed maxd num short ti d g f a ls e n :
  num <> "" -> all_chars isdigit num = true ->
  one_line short -> one_line ti -> one_line ls -> one_line e ->
  no_blank_line d = true -> no_blank_line g = true ->
  no_blank_line f = true -> no_blank_line a = true ->
  py_int maxd num = Some n ->
  parse_issues maxd (section_block num short ti d g f a ls e) =
  Ok [ {| number := n;
          short_title := Str.strip short; title := Str.strip ti;
          description := Str.strip d; goals := Str.strip g;
          files := Str.strip f; acceptance := Str.strip a;
          labels := parse_labels ls; effort := Str.strip e |} ].
Proof.
  intros Hnum Hdig Hs Ht Hl He Hd Hg Hf Ha Hn.
  pose proof (section_block_matched num short ti d g f a ls e ""
                Hnum Hdig Hs Ht Hl He Hd Hg Hf Ha I) as Hm.
  assert (exists m, section_block num short ti d g f a ls e = String "#" m)
    as [m Hblock] by (eexists; reflexivity).
  unfold parse_issues.
  rewrite <- (append_nil_r (section_block _ _ _ _ _ _ _ _ _)).
  rewrite Hblock in Hm |- *. rewrite (finditer_match _ _ _ _ _ Hm).
  unfold finditer. cbn [finditer_from collect_issues].
  unfold issue_of_match, group. cbn [nth Nat.sub]. by rewrite Hn.
Qed.

End SectionParsed.

(** *** Further properties of the parser *)

Section Parser.

Implicit Types (s doc pre rest : string) (m : list string).

Lemma finditer_from_unfold p a s :
  finditer_from p 0 (String a s) =
  match match_here p (String a s) with
  | Some (caps, rest) =>
      caps :: finditer_from p (String.length (String a s) - String.length rest - 1) s
  | None => finditer_from p 0 s
  end.
Proof. reflexivity. Qed.

Lemma issue_pattern_head a s :
  a <> "#"%char -> match_here issue_pattern (String a s) = None.
Proof.
  intros Ha. unfold issue_pattern. cbn [match_here skip_lit].
  by destruct (Ascii.eqb_spec "#" a) as [<-|].
Qed.

Lemma issue_pattern_empty : match_here issue_pattern "" = None.
Proof. reflexivity. Qed.

Lemma issue_fill_head m rest s :
  match_here issue_pattern s = Some (m, rest) ->
  exists body, fill issue_pattern m = String "#" body.
Proof.
  intros (num & short & ti & d & g & f & a & ls & e & ->)%issue_match_groups.
  eexists. reflexivity.
Qed.

Lemma occurs_in_inside l x before after :
  occurs_in l x -> occurs_in l (before +:+ x +:+ after).
Proof.
  intros (b & a & ->). exists (before +:+ b), (a +:+ after).
  by rewrite !append_assoc.
Qed.

Lemma fill_occurs p caps l : l ∈ literals p -> occurs_in l (fill p caps).
Proof.
  revert caps. induction p as [|[l'|c q] p IH]; intros caps; simpl.
  - by intros ?%elem_of_nil.
  - intros [->|Hl]%elem_of_cons.
    + exists "", (fill p caps). by rewrite append_nil_l.
    + destruct (IH caps Hl) as (b & a & ->). exists (l' +:+ b), a.
      by rewrite !append_assoc.
  - intros Hl. destruct caps as [|x caps].
    + apply IH, Hl.
    + destruct (IH caps Hl) as (b & a & ->). exists (x +:+ b), a.
      by rewrite !append_assoc.
Qed.

(** X1.  A document that lacks one of the fixed texts of the grammar (the
    heading, one of the field names with its punctuation and line breaks)
    gives no record, and no error: an incomplete section is skipped. *)
Theorem missing_literal_no_record (maxd : nat) (doc l : string) :
  l ∈ literals issue_pattern -> ~ occurs_in l doc ->
  parse_issues maxd doc = Ok [].
Proof.
  intros Hl Hno. unfold parse_issues.
  destruct (finditer issue_pattern doc) as [|m ms] eqn:Hfind; [done|].
  destruct (finditer_from_sound issue_pattern 0 doc m) as (before & rest & -> & _).
  { unfold finditer in Hfind. rewrite Hfind. by left. }
  destruct Hno. by apply occurs_in_inside, fill_occurs.
Qed.

(** The matches found in a text that starts with characters where the
    pattern cannot match are those of what follows. *)
Lemma finditer_skip_prefix p pre doc :
  (forall pre1 pre2, pre = pre1 +:+ pre2 -> pre2 <> "" ->
     match_here p (pre2 +:+ doc) = None) ->
  finditer p (pre +:+ doc) = finditer p doc.
Proof.
  unfold finditer. induction pre as [|a pre IH]; intros Hno; [done|].
  rewrite append_cons, finditer_from_unfold, <- append_cons.
  rewrite (Hno "" (String a pre)) by done.
  apply IH. intros pre1 pre2 -> Hpre2. by apply (Hno (String a pre1)).
Qed.

Lemma all_chars_suffix q pre1 pre2 :
  all_chars q (pre1 +:+ pre2) = true -> all_chars q pre2 = true.
Proof. rewrite all_chars_app. by intros [_ ?]%andb_true_iff. Qed.

(** X2.  Text without the character [#] in front of a document changes
    nothing to what is parsed. *)
Theorem text_without_hash_ignored (maxd : nat) (pre doc : string) :
  all_chars (is_not "#") pre = true ->
  parse_issues maxd (pre +:+ doc) = parse_issues maxd doc.
Proof.
  intros Hpre. unfold parse_issues. f_equal. apply finditer_skip_prefix.
  intros pre1 pre2 -> Hpre2. apply all_chars_suffix in Hpre.
  destruct pre2 as [|a pre2]; [done|]. rewrite append_cons.
  apply issue_pattern_head. intros ->. done.
Qed.

(** X3.  Either the pattern matches nowhere in the document and nothing is
    found, or the document is a text in which no match starts, then the
    first section, then a rest: the first match is that section, and the
    other matches are those of the rest.  So the sections are found from
    left to right and do not overlap, and the records come in this order. *)
Theorem sections_in_document_order (doc : string) :
  (finditer issue_pattern doc = [] /\ no_section doc)
  \/ exists pre m rest,
       doc = pre +:+ fill issue_pattern m +:+ rest
       /\ (forall pre1 pre2, pre = pre1 +:+ pre2 -> pre2 <> "" ->
             match_here issue_pattern (pre2 +:+ fill issue_pattern m +:+ rest)
             = None)
       /\ match_here issue_pattern (fill issue_pattern m +:+ rest) = Some (m, rest)
       /\ finditer issue_pattern doc = m :: finditer issue_pattern rest
       /\ forall maxd,
            parse_issues maxd doc =
            match issue_of_match maxd m with
            | Raise e => Raise e
            | Ok r =>
                match parse_issues maxd rest with
                | Raise e => Raise e
                | Ok rs => Ok (r :: rs)
                end
            end.
Proof.
  induction doc as [|a doc IH].
  - left. split; [done|]. intros [|b before] s; [|done].
    rewrite append_nil_l. by intros <-.
  - destruct (match_here issue_pattern (String a doc)) as [[m rest]|] eqn:Hm.
    + right. exists "", m, rest.
      destruct (match_here_sound _ _ _ _ Hm) as [Hdoc _].
      destruct (issue_fill_head _ _ _ Hm) as [body Hbody].
      rewrite append_nil_l, <- Hdoc.
      assert (finditer issue_pattern (String a doc)
              = m :: finditer issue_pattern rest) as Hfind.
      { revert Hm. rewrite Hdoc, Hbody. apply finditer_match. }
      split; [done|]. split.
      { intros [|b pre1] pre2; [|done]. rewrite append_nil_l. by intros <-. }
      split; [done|]. split; [done|].
      intros maxd. unfold parse_issues. by rewrite Hfind.
    + assert (finditer issue_pattern (String a doc) = finditer issue_pattern doc)
        as Hstep.
      { unfold finditer. by rewrite finditer_from_unfold, Hm. }
      destruct IH as [[Hnil Hno]|(pre & m & rest & -> & Hpre & Hmatch & Hfind & Hparse)].
      * left. rewrite Hstep. split; [done|].
        intros [|b before] s.
        -- rewrite append_nil_l. by intros <-.
        -- rewrite append_cons. intros [= _ ->]. by apply (Hno before).
      * right. exists (String a pre), m, rest. rewrite Hstep.
        split; [done|]. split.
        { intros [|b pre1] pre2.
          - rewrite append_nil_l. intros <- _. by rewrite append_cons.
          - rewrite append_cons. intros [= _ ->] Hpre2. by apply (Hpre pre1). }
        split; [done|]. split; [done|].
        intros maxd. rewrite <- Hparse. unfold parse_issues.
        by rewrite ?append_cons, Hstep.
Qed.

End Parser.

(** X1 at a section whose last line is missing. *)
Lemma missing_literal_no_record_witness :
  (nl +:+ "**Estimated effort**: ") ∈ literals issue_pattern
  /\ ~ occurs_in (nl +:+ "**Estimated effort**: ") truncated_doc
  /\ parse_issues 4300 truncated_doc = Ok [].
Proof.
  assert ((nl +:+ "**Estimated effort**: ") ∈ literals issue_pattern) as Hl.
  { apply list_elem_of_In. vm_compute. tauto. }
  assert (~ occurs_in (nl +:+ "**Estimated effort**: ") truncated_doc) as Hno.
  { intros H%occurs_inb_complete. by vm_compute in H. }
  split; [exact Hl|]. split; [exact Hno|].
  exact (missing_literal_no_record 4300 truncated_doc _ Hl Hno).
Defined.

(** X2 at [indented_doc] after a title and a blank line. *)
Lemma text_without_hash_ignored_witness :
  all_chars (is_not "#") ("Code review follow-ups" +:+ nl +:+ nl) = true
  /\ parse_issues 4300 (("Code review follow-ups" +:+ nl +:+ nl) +:+ indented_doc)
     = parse_issues 4300 indented_doc.
Proof.
  split; [reflexivity|].
  apply (text_without_hash_ignored 4300 ("Code review follow-ups" +:+ nl +:+ nl)).
  reflexivity.
Defined.

(** *** The fields of a record *)

Section Fields.

Implicit Types (s num : string).

Lemma match_here_classes p s caps rest :
  match_here p s = Some (caps, rest) -> in_classes p caps.
Proof.
  revert s caps. induction p as [|[l|c q] p IH]; intros s caps; simpl; [done|..].
  - destruct (skip_lit l s) as [s'|]; [|done]. apply IH.
  - destruct (repeat q c (match_here p) s) as [[g [caps' rest']]|] eqn:Hr; [|done].
    intros [= <- <-].
    apply repeat_sound in Hr as (s' & -> & Hk & Hg & Hne). eauto.
Qed.

Lemma digit_value_nonneg (a : ascii) : isdigit a = true -> 0 <= digit_value a <= 9.
Proof.
  unfold isdigit, digit_value.
  intros [?%N.leb_le ?%N.leb_le]%andb_true_iff. lia.
Qed.

Lemma decimal_nonneg acc s :
  0 <= acc -> all_chars isdigit s = true -> 0 <= decimal acc s.
Proof.
  revert acc. induction s as [|a s IH]; intros acc Hacc; simpl; [done|].
  intros [Ha Hs]%andb_true_iff. apply IH; [|done].
  pose proof (digit_value_nonneg a Ha). lia.
Qed.

Lemma int_body_digits acc cnt s :
  all_chars isdigit s = true ->
  int_body IntDigit acc cnt s = Some (decimal acc s, (cnt + String.length s)%nat).
Proof.
  revert acc cnt. induction s as [|a s IH]; intros acc cnt; simpl.
  - intros _. do 2 f_equal. lia.
  - intros [Ha Hs]%andb_true_iff. rewrite Ha, (IH _ _ Hs). do 2 f_equal. lia.
Qed.

(** [int] on a run of digits: its decimal value, unless the run is longer
    than the limit. *)
Lemma py_int_digits maxd num :
  num <> "" -> all_chars isdigit num = true ->
  py_int maxd num =
  if (negb (maxd =? 0) && (maxd <? String.length num))%nat then None
  else Some (decimal 0 num).
Proof.
  destruct num as [|a num]; [done|]. intros _ Hnum.
  pose proof Hnum as [Ha Hrest]%andb_true_iff.
  unfold py_int. cbn [int_lskip]. rewrite (digit_not_space _ Ha).
  rewrite int_sign_other by (intros ->; done).
  cbn [int_body]. rewrite Ha, (int_body_digits _ _ _ Hrest).
  reflexivity.
Qed.

Lemma all_chars_strip q s :
  all_chars q s = true -> all_chars q (Str.strip s) = true.
Proof.
  destruct (strip_spec s) as (w1 & w2 & Hs & _). rewrite Hs at 1.
  rewrite !all_chars_app, !andb_true_iff. tauto.
Qed.

Lemma all_chars_split q c s :
  all_chars q s = true -> Forall (fun x => all_chars q x = true) (Str.split c s).
Proof.
  induction s as [|a s IH]; simpl; [by repeat constructor|].
  intros [Ha Hs]%andb_true_iff. specialize (IH Hs).
  destruct (split_cons c s) as (x & xs & Hx). rewrite Hx in *.
  inversion_clear IH. destruct (Ascii.eqb a c); constructor; simpl; auto.
  by rewrite Ha.
Qed.

(** What the groups of a match of [issue_pattern] are made of. *)
Lemma issue_match_classes num short ti d g f a ls e rest s :
  match_here issue_pattern s = Some ([num; short; ti; d; g; f; a; ls; e], rest) ->
  num <> "" /\ all_chars isdigit num = true
  /\ one_line short /\ one_line ti /\ one_line ls /\ one_line e.
Proof.
  intros Hm%match_here_classes. unfold issue_pattern in Hm. cbn [in_classes] in Hm.
  unfold one_line. intuition.
Qed.

(** X5.  The number of a record is the decimal value of the digits that
    follow [### Issue ] in its section: it is never negative, a sign is not
    read, and the digits are within the limit of the interpreter. *)
Theorem parsed_number
    (maxd : nat) (doc : string) (rs : list IssueRecord) (r : IssueRecord) :
  parse_issues maxd doc = Ok rs -> r ∈ rs ->
  exists num short ti d g f a ls e before rest,
    doc = before +:+ section_block num short ti d g f a ls e +:+ rest
    /\ num <> "" /\ all_chars isdigit num = true
    /\ number r = decimal 0 num /\ 0 <= number r
    /\ (maxd = 0 \/ String.length num <= maxd)%nat.
Proof.
  intros Hp Hr.
  destruct (parse_issues_elem _ _ _ _ Hp Hr) as (m & before & rest & Hm & Hdoc & Hmatch).
  destruct (issue_match_groups _ _ _ Hmatch)
    as (num & short & ti & d & g & f & a & ls & e & ->).
  destruct (issue_match_classes _ _ _ _ _ _ _ _ _ _ _ Hmatch) as (Hne & Hnum & _).
  apply issue_of_match_fields in Hm as (Hint & _).
  rewrite py_int_digits in Hint by done.
  destruct (negb (maxd =? 0) && (maxd <? String.length num))%nat eqn:Hlim; [done|].
  injection Hint as Hint. apply within_limit in Hlim.
  exists num, short, ti, d, g, f, a, ls, e, before, rest.
  rewrite <- Hint. repeat split; auto.
  by apply decimal_nonneg.
Qed.

(** X6.  The short title, the title and the effort of a record hold no
    newline and no white space at their ends, and no label holds a
    newline: each comes from one line of the section. *)
Theorem parsed_one_line_fields
    (maxd : nat) (doc : string) (rs : list IssueRecord) (r : IssueRecord) :
  parse_issues maxd doc = Ok rs -> r ∈ rs ->
  Forall (fun x => all_chars (in_cls NotNewline) x = true /\ trimmed x)
         [short_title r; title r; effort r]
  /\ Forall (fun l => all_chars (in_cls NotNewline) l = true) (labels r).
Proof.
  intros Hp Hr.
  destruct (parse_issues_elem _ _ _ _ Hp Hr) as (m & before & rest & Hm & Hdoc & Hmatch).
  destruct (issue_match_groups _ _ _ Hmatch)
    as (num & short & ti & d & g & f & a & ls & e & ->).
  destruct (issue_match_classes _ _ _ _ _ _ _ _ _ _ _ Hmatch)
    as (_ & _ & [_ Hs] & [_ Ht] & [_ Hl] & [_ He]).
  apply issue_of_match_fields in Hm
    as (_ & -> & -> & _ & _ & _ & _ & -> & ->).
  assert (forall x, all_chars (in_cls NotNewline) x = true ->
    all_chars (in_cls NotNewline) (Str.strip x) = true /\ trimmed (Str.strip x))
    as Hline.
  { intros x Hx. split; [by apply all_chars_strip|].
    by destruct (strip_spec x) as (? & ? & _ & _ & _ & ?). }
  split; [repeat constructor; by apply Hline|].
  unfold parse_labels. apply Forall_fmap.
  eapply Forall_impl; [apply all_chars_split, all_chars_strip, Hl|].
  intros x Hx. by apply all_chars_strip.
Qed.

Lemma collect_issues_raise maxd ms e :
  collect_issues maxd ms = Raise e ->
  exists m, m ∈ ms /\ issue_of_match maxd m = Raise e.
Proof.
  induction ms as [|m ms IH]; simpl; [done|].
  destruct (issue_of_match maxd m) as [r|e'] eqn:Hm.
  - destruct (collect_issues maxd ms) as [rs|e']; [done|].
    intros [= <-]. destruct (IH eq_refl) as (m' & ? & ?).
    exists m'. split; [by right|done].
  - intros [= <-]. exists m. split; [by left|done].
Qed.

(** X7.  The parser raises nothing but the [ValueError] of [int] on a
    section number that has more digits than the interpreter allows; under
    an interpreter without limit it returns a list for every document. *)
Theorem parse_error_is_digit_limit (maxd : nat) (doc : string) :
  (forall e, parse_issues maxd doc = Raise e ->
     exists num,
       e = Error "ValueError" num
       /\ all_chars isdigit num = true
       /\ (0 < maxd < String.length num)%nat
       /\ occurs_in ("### Issue " +:+ num +:+ ": ") doc)
  /\ exists rs, parse_issues 0 doc = Ok rs.
Proof.
  assert (forall maxd' e, parse_issues maxd' doc = Raise e ->
     exists num,
       e = Error "ValueError" num
       /\ all_chars isdigit num = true
       /\ (0 < maxd' < String.length num)%nat
       /\ occurs_in ("### Issue " +:+ num +:+ ": ") doc) as Hraise.
  { intros maxd' e' (m & Hin & Hm)%collect_issues_raise.
    apply finditer_from_sound in Hin as (before & rest & -> & Hmatch).
    destruct (issue_match_groups _ _ _ Hmatch)
      as (num & short & ti & d & g & f & a & ls & e & ->).
    destruct (issue_match_classes _ _ _ _ _ _ _ _ _ _ _ Hmatch) as (Hne & Hnum & _).
    revert Hm. unfold issue_of_match, group. cbn [nth Nat.sub].
    rewrite py_int_digits by done.
    destruct (negb (maxd' =? 0) && (maxd' <? String.length num))%nat eqn:Hlim;
      [|done].
    intros [= <-]. exists num. split; [done|]. split; [done|].
    apply andb_true_iff in Hlim as [Hz%negb_true_iff%Nat.eqb_neq Hlt%Nat.ltb_lt].
    split; [lia|].
    exists before. eexists. unfold issue_pattern. cbn [fill].
    rewrite !append_assoc. reflexivity. }
  split; [apply Hraise|].
  destruct (parse_issues 0 doc) as [rs|e] eqn:Hp; [eauto|].
  destruct (Hraise 0%nat e Hp) as (? & _ & _ & ? & _). lia.
Qed.

(** X4.  A well-formed section (a number of digits within the limit,
    one-line fields without newline, free texts without blank line) that
    is followed by the end of the document or by a newline gives its
    record, with the fields stripped, and parsing goes on after it. *)
Theorem section_then_rest
    (maxd : nat) (num short ti d g f a ls e rest : string) :
  num <> "" -> all_chars isdigit num = true ->
  (maxd = 0 \/ String.length num <= maxd)%nat ->
  one_line short -> one_line ti -> one_line ls -> one_line e ->
  no_blank_line d = true -> no_blank_line g = true ->
  no_blank_line f = true -> no_blank_line a = true ->
  stops NotNewline rest ->
  parse_issues maxd (section_block num short ti d g f a ls e +:+ rest) =
  match parse_issues maxd rest with
  | Raise err => Raise err
  | Ok rs =>
      Ok ({| number := decimal 0 num;
             short_title := Str.strip short; title := Str.strip ti;
             description := Str.strip d; goals := Str.strip g;
             files := Str.strip f; acceptance := Str.strip a;
             labels := parse_labels ls; effort := Str.strip e |} :: rs)
  end.
Proof.
  intros Hne Hnum Hlim Hs Ht Hl He Hd Hg Hf Ha Hrest.
  pose proof (section_block_matched num short ti d g f a ls e rest
                Hne Hnum Hs Ht Hl He Hd Hg Hf Ha Hrest) as Hm.
  assert (exists body, section_block num short ti d g f a ls e = String "#" body)
    as [body Hblock] by (eexists; reflexivity).
  unfold parse_issues. rewrite Hblock in Hm |- *.
  rewrite (finditer_match _ _ _ _ _ Hm). cbn [collect_issues].
  unfold issue_of_match, group. cbn [nth Nat.sub].
  rewrite py_int_digits by done.
  apply within_limit in Hlim. by rewrite Hlim.
Qed.

(** X4 at the first section of a document of two. *)
Lemma section_then_rest_witness :
  parse_issues 4300
    (section_block "1" "Docs" "Fix the docs" "  indented text" "G" "F" "A"
                   "docs" "1h"
     +:+ (nl +:+ nl +:+ empty_label_doc))
  = Ok [indented_record; empty_label_record].
Proof.
  rewrite (section_then_rest 4300 "1" "Docs" "Fix the docs" "  indented text"
             "G" "F" "A" "docs" "1h" (nl +:+ nl +:+ empty_label_doc));
    first [ by vm_compute | split; by vm_compute | right; simpl; lia ].
Defined.

End Fields.

(** X5 at the record of [indented_doc]. *)
Lemma parsed_number_witness :
  exists num short ti d g f a ls e before rest,
    indented_doc = before +:+ section_block num short ti d g f a ls e +:+ rest
    /\ num <> "" /\ all_chars isdigit num = true
    /\ number indented_record = decimal 0 num /\ 0 <= number indented_record
    /\ (4300 = 0 \/ String.length num <= 4300)%nat.
Proof.
  apply (parsed_number 4300 indented_doc [indented_record]).
  - by vm_compute.
  - by left.
Defined.

(** X6 at the record of [indented_doc]. *)
Lemma parsed_one_line_fields_witness :
  Forall (fun x => all_chars (in_cls NotNewline) x = true /\ trimmed x)
         [short_title indented_record; title indented_record;
          effort indented_record]
  /\ Forall (fun l => all_chars (in_cls NotNewline) l = true)
            (labels indented_record).
Proof.
  apply (parsed_one_line_fields 4300 indented_doc [indented_record]).
  - by vm_compute.
  - by left.
Defined.

(** *** The labels line, printed and read again *)

Lemma split_at_sep c x s :
  all_chars (is_not c) x = true ->
  Str.split c (x +:+ String c s) = x :: Str.split c s.
Proof.
  induction x as [|a x IH]; simpl.
  - intros _. rewrite ?append_nil_l. cbn [Str.split]. by rewrite Ascii.eqb_refl.
  - intros [Ha Hx]%andb_true_iff. rewrite ?append_cons. cbn [Str.split].
    unfold is_not in Ha. apply negb_true_iff in Ha. by rewrite Ha, (IH Hx).
Qed.

Lemma split_join_labels l ls :
  Forall (fun x => all_chars (is_not ",") x = true) (l :: ls) ->
  Str.split "," (Str.join ", " (l :: ls)) = l :: (String.append " " <$> ls).
Proof.
  revert l. induction ls as [|l2 ls IH]; intros l Hall.
  - inversion_clear Hall. simpl. by apply split_no_sep.
  - inversion_clear Hall as [|? ? Hl Hrest].
    change (Str.join ", " (l :: l2 :: ls))
      with (l +:+ String "," (" " +:+ Str.join ", " (l2 :: ls))).
    rewrite split_at_sep by done. f_equal.
    rewrite (split_app_l "," " ") by done. rewrite (IH _ Hrest). done.
Qed.

(** Joining labels that are trimmed and free of commas with [", "] and
    reading the line again gives the labels back. *)
Lemma labels_line_round_trip l ls :
  Forall (fun x => trimmed x /\ all_chars (is_not ",") x = true) (l :: ls) ->
  parse_labels (Str.join ", " (l :: ls)) = l :: ls.
Proof.
  intros Hall. rewrite parse_labels_pieces, split_join_labels.
  - inversion_clear Hall as [|? ? [Hl _] Hrest]. cbn [fmap list_fmap].
    rewrite (strip_trimmed_id _ Hl). f_equal.
    induction Hrest as [|x xs [Hx _] _ IH]; [done|]. cbn [fmap list_fmap].
    rewrite (strip_app_space_l " ") by done.
    by rewrite (strip_trimmed_id _ Hx), IH.
  - eapply Forall_impl; [exact Hall|]. by intros x [_ ?].
Qed.

(** X8.  The labels of a record, printed with [', '.join] as on the
    [Labels:] line of the report and read again as a labels line, are the
    same labels: in the same order, with the same repetitions and the same
    empty entries. *)
Theorem labels_print_parse (line : string) :
  parse_labels (Str.join ", " (parse_labels line)) = parse_labels line.
Proof.
  rewrite (parse_labels_pieces line).
  destruct (split_cons "," line) as (x & xs & Hx).
  pose proof (split_pieces "," line) as Hpieces. rewrite Hx in *.
  cbn [fmap list_fmap]. apply labels_line_round_trip.
  change (Forall (fun y => trimmed y /\ all_chars (is_not ",") y = true)
            (Str.strip <$> x :: xs)).
  apply Forall_fmap. eapply Forall_impl; [exact Hpieces|].
  intros piece Hpiece. simpl. split.
  - by destruct (strip_spec piece) as (? & ? & _ & _ & _ & ?).
  - eauto using trim_of_no_comma, strip_trim_of.
Qed.

(** *** Further properties of the runner *)

Section Runner.

Variable w : world.

Lemma process_issue_dry existing c issue t :
  process_issue w true (existing, c) issue t
  = (t ++ dry_report issue, Ok (existing, c)).
Proof.
  unfold process_issue, dry_report, issue_header. cbv beta iota zeta.
  rewrite !print_bind. unfold mret, M_ret.
  by rewrite <- !(assoc_L (++)).
Qed.

Lemma dry_loop l existing c t :
  for_each (process_issue w true) l (existing, c) t
  = (t ++ concat (dry_report <$> l), Ok (existing, c)).
Proof.
  revert t. induction l as [|issue l IH]; intros t; cbn [for_each].
  - simpl. by rewrite app_nil_r.
  - rewrite (bind_Ok _ _ _ _ _ (process_issue_dry existing c issue t)), IH.
    cbn [fmap list_fmap concat]. by rewrite <- !(assoc_L (++)).
Qed.

Lemma prologue_dry_run t t0 cfg filtered_issues :
  prologue w t = (t0, Ok (cfg, filtered_issues)) -> dry_run cfg = dry_run_flag w.
Proof.
  intros H. destruct (prologue_traces w t) as (_ & _ & _ & Hq).
  apply (Hq (cfg, filtered_issues)). by rewrite H.
Qed.

(** X9.  A dry run whose bounds are integers and whose document is read
    and parsed completes normally, and prints exactly: the configuration,
    the two counts, for each filtered record in order its five lines
    (number and title, labels, effort, the title again, an empty line), and
    the three closing lines. *)
Theorem dry_run_report (doc : string) (issues : list IssueRecord) (a b : Z) :
  dry_run_flag w = true ->
  py_int (int_max_str_digits w) (getenv w "START_ISSUE" "1") = Some a ->
  py_int (int_max_str_digits w) (getenv w "END_ISSUE" "20") = Some b ->
  file_system w issues_file = Ok doc ->
  parse_issues (int_max_str_digits w) doc = Ok issues ->
  let kept := filter_issues a b issues in
  run w =
    (config_lines true a b ++ load_lines (len issues) (len kept) a b
       ++ concat (dry_report <$> kept) ++ dry_footer,
     Ok tt).
Proof.
  intros Hdry Ha Hb Hf Hp kept. unfold run.
  rewrite main_phases, (bind_Ok _ _ _ _ _ (prologue_Ok w doc issues a b Ha Hb Hf Hp)).
  rewrite Hdry. unfold epilogue. cbn [dry_run negb fst snd].
  unfold mbind at 1, M_bind at 1, mret at 1, M_ret at 1.
  rewrite (bind_Ok _ _ _ _ _ (dry_loop _ ∅ 0 _)).
  unfold summary, dry_footer. rewrite !print_bind. cbn [snd].
  unfold print. by rewrite <- !(assoc_L (++)).
Qed.

(** X13.  In live mode, once the document is parsed and filtered, an empty
    [GITHUB_TOKEN] or [GITHUB_REPOSITORY] is fatal like a missing one; the
    token is looked at first, so the repository is named only when the
    token is there. *)
Theorem empty_credentials_fatal
    (t0 : list event) (cf : config * list IssueRecord) :
  dry_run_flag w = false ->
  prologue w [] = (t0, Ok cf) ->
  (unset (environ w "GITHUB_TOKEN") ->
   run w =
     (t0 ++ [Print "ERROR: GITHUB_TOKEN environment variable not set"],
      Raise (SystemExit 1)))
  /\ (~ unset (environ w "GITHUB_TOKEN") ->
      unset (environ w "GITHUB_REPOSITORY") ->
      run w =
        (t0 ++ [Print "ERROR: GITHUB_REPOSITORY environment variable not set"],
         Raise (SystemExit 1))).
Proof.
  intros Hlive Hpro. destruct cf as [cfg fi].
  pose proof (prologue_dry_run _ _ _ _ Hpro) as Hcfg.
  unfold run. rewrite main_phases, (bind_Ok _ _ _ _ _ Hpro).
  unfold epilogue. cbn [fst snd]. rewrite Hcfg, Hlive. cbn [negb].
  unfold unset. split.
  - intros Htok. erewrite bind_Raise; [reflexivity|].
    unfold connect. by destruct Htok as [-> | ->].
  - intros Htok Hrepo. erewrite bind_Raise; [reflexivity|].
    unfold connect.
    destruct (environ w "GITHUB_TOKEN") as [[|c tok]|]; [tauto| |tauto].
    by destruct Hrepo as [-> | ->].
Qed.

End Runner.

(** X9 on the document of two sections, from issue 2 on. *)
Lemma dry_run_report_witness :
  dry_run_flag dry_world_from_2 = true
  /\ run dry_world_from_2 =
       (config_lines true 2 20 ++ load_lines 2 1 2 20
          ++ dry_report tests_issue ++ dry_footer,
        Ok tt).
Proof.
  split; [reflexivity|].
  rewrite (dry_run_report dry_world_from_2 two_issue_doc
             [logging_issue; tests_issue] 2 20); by vm_compute.
Defined.

(** X13 at a world whose token is the empty text. *)
Lemma empty_credentials_fatal_witness :
  dry_run_flag world_with_empty_token = false
  /\ unset (environ world_with_empty_token "GITHUB_TOKEN")
  /\ run world_with_empty_token =
       (config_lines false 1 20 ++ load_lines 2 2 1 20
          ++ [Print "ERROR: GITHUB_TOKEN environment variable not set"],
        Raise (SystemExit 1)).
Proof.
  assert (unset (environ world_with_empty_token "GITHUB_TOKEN")) as Htok
    by (by right).
  split; [reflexivity|]. split; [exact Htok|].
  destruct (empty_credentials_fatal world_with_empty_token
              (config_lines false 1 20 ++ load_lines 2 2 1 20)
              ({| dry_run := false; start_issue := 1; end_issue := 20 |},
               [logging_issue; tests_issue]))
    as [Hrun _]; [reflexivity|by vm_compute|].
  rewrite (Hrun Htok). by rewrite <- (assoc_L (++)).
Defined.

(** *** The calls that create issues *)

Section CreateCalls.

Variable w : world.

Lemma create_calls_app d1 d2 :
  create_calls (d1 ++ d2) = create_calls d1 ++ create_calls d2.
Proof. apply List.filter_app. Qed.

Lemma create_calls_quiet d : Forall quiet d -> create_calls d = [].
Proof.
  induction 1 as [|ev d Hev _ IH]; [done|].
  unfold create_calls in *. simpl. by rewrite Hev.
Qed.

Lemma ensure_labels_quiet ls existing t :
  exists d, (for_each (ensure_label w) ls existing t).1 = t ++ d /\ Forall quiet d.
Proof.
  destruct (traces_for_each quiet (fun _ => True) (ensure_label w) ls existing
              (fun s x _ => ensure_label_traces w s x) I t) as (d & ? & ? & _).
  eauto.
Qed.

(** One record in live mode: one call at most, and one exactly unless the
    labels could not be created. *)
Lemma process_issue_live_calls existing c issue t t' r :
  process_issue w false (existing, c) issue t = (t', r) ->
  exists d, t' = t ++ d
    /\ (create_calls d = [create_call issue]
        \/ create_calls d = [] /\ exists e, r = Raise e).
Proof.
  destruct (ensure_labels_quiet (labels issue) existing
              (t ++ issue_header false issue)) as (d2 & Ht2 & Hd2).
  destruct (for_each (ensure_label w) _ _ _) as [t2 r2] eqn:Hlabels.
  rewrite (process_issue_live w _ c _ _ _ _ Hlabels).
  simpl in Ht2. subst t2.
  assert (Forall quiet (issue_header false issue ++ d2)) as Hquiet.
  { apply Forall_app. split; [by repeat constructor|done]. }
  assert (forall tail, create_calls tail = [create_call issue] ->
    create_calls ((issue_header false issue ++ d2) ++ tail) = [create_call issue])
    as Hone.
  { intros tail Htail. by rewrite create_calls_app, (create_calls_quiet _ Hquiet). }
  destruct r2 as [existing'|e].
  - destruct (create_issue w _ _ _ _) as [[n url]|e];
      [|destruct (is_Exception e)]; intros [= <- <-];
      eexists ((issue_header false issue ++ d2) ++ _);
      (split; [by rewrite <- !(assoc_L (++))|left; by apply Hone]).
  - intros [= <- <-]. exists (issue_header false issue ++ d2).
    split; [by rewrite <- !(assoc_L (++))|]. right.
    split; [by apply create_calls_quiet|eauto].
Qed.

Lemma live_loop_calls l existing c t t' r :
  for_each (process_issue w false) l (existing, c) t = (t', r) ->
  exists d, t' = t ++ d
    /\ create_calls d `prefix_of` (create_call <$> l)
    /\ (forall st, r = Ok st -> create_calls d = create_call <$> l).
Proof.
  revert existing c t. induction l as [|issue l IH]; intros existing c t;
    cbn [for_each].
  - intros [= <- <-]. exists []. rewrite app_nil_r. by repeat split.
  - rewrite bind_unfold.
    destruct (process_issue w false (existing, c) issue t)
      as [t1 r1] eqn:Hstep.
    apply process_issue_live_calls in Hstep as (d1 & -> & Hd1).
    destruct r1 as [[existing1 c1]|e].
    + destruct Hd1 as [Hd1|[_ [? [=]]]].
      intros (d2 & -> & Hpre & Hall)%IH.
      exists (d1 ++ d2). rewrite (assoc_L (++)), create_calls_app, Hd1.
      split; [done|]. cbn [fmap list_fmap]. split.
      * by apply prefix_cons.
      * intros st Hst. simpl. f_equal. by apply (Hall st).
    + intros [= <- <-]. exists d1. split; [done|]. split; [|done].
      cbn [fmap list_fmap].
      destruct Hd1 as [-> |[-> _]]; [|apply prefix_nil].
      apply prefix_cons, prefix_nil.
Qed.

(** X10.  In live mode the calls to [create_issue] of a run are made for
    the filtered records in their order, at most one for each, with the
    title, the rendered body and the labels of the record; a run that
    completes has made exactly one call for every filtered record. *)
Theorem create_calls_follow_records
    (t0 t : list event) (cfg : config) (filtered_issues : list IssueRecord)
    (r : result unit) :
  dry_run_flag w = false ->
  prologue w [] = (t0, Ok (cfg, filtered_issues)) ->
  run w = (t, r) ->
  create_calls t `prefix_of` (create_call <$> filtered_issues)
  /\ (r = Ok tt -> create_calls t = create_call <$> filtered_issues).
Proof.
  intros Hlive Hpro.
  pose proof (prologue_dry_run _ _ _ _ _ Hpro) as Hcfg.
  destruct (prologue_traces w []) as (d0 & Ht0 & Hd0%local_quiet & _).
  rewrite Hpro in Ht0. simpl in Ht0. subst t0.
  unfold run. rewrite main_phases, (bind_Ok _ _ _ _ _ Hpro).
  unfold epilogue. cbn [fst snd]. rewrite Hcfg, Hlive. cbn [negb].
  rewrite bind_unfold.
  destruct (connect_traces w d0) as (dc & Htc & Hdc & _).
  destruct (connect w d0) as [t1 [existing|e]]; simpl in Htc; subst t1.
  - rewrite bind_unfold.
    destruct (for_each _ filtered_issues _ _) as [t2 r2] eqn:Hloop.
    apply live_loop_calls in Hloop as (dl & -> & Hpre & Hall).
    assert (create_calls ((d0 ++ dc) ++ dl) = create_calls dl) as Hcalls.
    { by rewrite !create_calls_app, (create_calls_quiet _ Hd0),
        (create_calls_quiet _ Hdc). }
    destruct r2 as [st|e].
    + unfold summary. rewrite print_bind. unfold print.
      intros [= <- <-].
      rewrite (create_calls_app (_ ++ [Print "Done!"])),
        (create_calls_app _ [Print "Done!"]), Hcalls, (Hall st eq_refl).
      cbn [create_calls List.filter is_create]. rewrite !app_nil_r. by split.
    + intros [= <- <-]. rewrite Hcalls. by split.
  - intros [= <- <-].
    rewrite create_calls_app, (create_calls_quiet _ Hd0), (create_calls_quiet _ Hdc).
    split; [apply prefix_nil|done].
Qed.

End CreateCalls.

(** X10 on the live run of two sections, the first refused. *)
Lemma create_calls_follow_records_witness :
  dry_run_flag live_world = false
  /\ create_calls (run live_world).1
     = [create_call logging_issue; create_call tests_issue].
Proof.
  split; [reflexivity|].
  destruct (create_calls_follow_records live_world
              (config_lines false 1 20 ++ load_lines 2 2 1 20)
              (run live_world).1
              {| dry_run := false; start_issue := 1; end_issue := 20 |}
              [logging_issue; tests_issue] (Ok tt))
    as [_ Hall]; [reflexivity|by vm_compute|by vm_compute|].
  by apply Hall.
Defined.

(** *** Live runs that complete *)

Section Completes.

Variable w : world.

Hypothesis labels_accepted : forall h name color, create_label w h name color = Ok tt.

Hypothesis issues_refused_by_error :
  forall h title body labels e,
    create_issue w h title body labels = Raise e -> is_Exception e = true.

Lemma ensure_label_Ok existing label t :
  exists t' existing', ensure_label w existing label t = (t', Ok existing').
Proof.
  unfold ensure_label. destruct (decide _); [by eexists _, _|].
  rewrite print_bind, call_bind, labels_accepted. by eexists _, _.
Qed.

Lemma ensure_labels_Ok ls existing t :
  exists t' existing', for_each (ensure_label w) ls existing t = (t', Ok existing').
Proof.
  revert existing t. induction ls as [|l ls IH]; intros existing t; cbn [for_each].
  - by eexists _, _.
  - destruct (ensure_label_Ok existing l t) as (t1 & existing1 & Hstep).
    rewrite (bind_Ok _ _ _ _ _ Hstep). apply IH.
Qed.

Lemma process_issue_live_Ok st issue t :
  exists t' st', process_issue w false st issue t = (t', Ok st').
Proof.
  destruct st as [existing c].
  destruct (ensure_labels_Ok (labels issue) existing
              (t ++ issue_header false issue)) as (t2 & existing' & Hlabels).
  rewrite (process_issue_live w _ c _ _ _ _ Hlabels).
  destruct (create_issue w t2 _ _ _) as [[n url]|e] eqn:Hc; [by eexists _, _|].
  rewrite (issues_refused_by_error _ _ _ _ _ Hc). by eexists _, _.
Qed.

Lemma live_loop_Ok l st t :
  exists t' st', for_each (process_issue w false) l st t = (t', Ok st').
Proof.
  revert st t. induction l as [|issue l IH]; intros st t; cbn [for_each].
  - by eexists _, _.
  - destruct (process_issue_live_Ok st issue t) as (t1 & st1 & Hstep).
    rewrite (bind_Ok _ _ _ _ _ Hstep). apply IH.
Qed.

(** X14.  A live run that has read, parsed and filtered the document,
    has both credentials and has fetched the repository and its labels
    completes normally (exit status 0) when the tracker accepts every label
    and answers [create_issue] with an issue or an [Exception]: the issues
    that cannot be created do not make the run fail. *)
Theorem live_run_completes
    (t0 : list event) (cf : config * list IssueRecord) (tok repo : string) :
  dry_run_flag w = false ->
  prologue w [] = (t0, Ok cf) ->
  environ w "GITHUB_TOKEN" = Some tok -> tok <> "" ->
  environ w "GITHUB_REPOSITORY" = Some repo -> repo <> "" ->
  (forall h, get_repo w h tok repo = Ok tt) ->
  (forall h, exists names, get_labels w h = Ok names) ->
  exists t, run w = (t, Ok tt).
Proof.
  intros Hlive Hpro Ht Htok Hr Hrepo Hget Hlab. destruct cf as [cfg fi].
  pose proof (prologue_dry_run _ _ _ _ _ Hpro) as Hcfg.
  unfold run. rewrite main_phases, (bind_Ok _ _ _ _ _ Hpro).
  unfold epilogue. cbn [fst snd]. rewrite Hcfg, Hlive. cbn [negb].
  destruct (Hlab (t0 ++ [GetRepo tok repo])) as [names Hnames].
  rewrite (bind_Ok _ _ _ _ _
             (connect_Ok w _ tok repo names Ht Htok Hr Hrepo (Hget _) Hnames)).
  destruct (live_loop_Ok fi (list_to_set names, 0) (t0 ++ [GetRepo tok repo; GetLabels]))
    as (t2 & st2 & Hloop).
  rewrite (bind_Ok _ _ _ _ _ Hloop).
  unfold summary. rewrite print_bind. unfold print. by eexists.
Qed.

End Completes.

(** X14 at the live world whose tracker refuses the first issue. *)
Lemma live_run_completes_witness : exists t, run live_world = (t, Ok tt).
Proof.
  apply (live_run_completes live_world)
    with (t0 := config_lines false 1 20 ++ load_lines 2 2 1 20)
         (cf := ({| dry_run := false; start_issue := 1; end_issue := 20 |},
                 [logging_issue; tests_issue]))
         (tok := "t0ken") (repo := "o/r"); try (by vm_compute).
  - intros h title body labels e. simpl.
    destruct (String.eqb title "Add structured logging"); [|done].
    by intros [= <-].
  - intros h. by exists ["enhancement"].
Defined.

(** *** Exceptions that end the run *)

Section Strict.

Variable w : world.

Lemma ends_on_fatal_Ok {A B} t d1 d2 (a : A) (r : result B) :
  ends_on_fatal w t d1 (Ok a) -> ends_on_fatal w (t ++ d1) d2 r ->
  ends_on_fatal w t (d1 ++ d2) r.
Proof.
  revert t. induction d1 as [|ev d1 IH]; intros t; simpl.
  - by rewrite app_nil_r.
  - destruct (fatal w t ev); [by intros [_ ?]|].
    intros H1 H2. apply IH; [done|]. by rewrite <- (assoc_L (++)).
Qed.

Lemma ends_on_fatal_Raise {A B} t d e :
  ends_on_fatal w t d (Raise e : result A) ->
  ends_on_fatal w t d (Raise e : result B).
Proof.
  revert t. induction d as [|ev d IH]; intros t; simpl; [done|].
  destruct (fatal w t ev); [|apply IH]. by intros [-> [= ->]].
Qed.

Lemma ends_on_fatal_prints {A} t d (r : result A) :
  Forall (fun ev => exists line, ev = Print line) d -> ends_on_fatal w t d r.
Proof.
  intros Hd. revert t. induction Hd as [|ev d [line ->] _ IH]; intros t; simpl; auto.
Qed.

Lemma strict_ret {A} (a : A) : strict w (mret a).
Proof. intros t. exists []. simpl. by rewrite app_nil_r. Qed.

Lemma strict_raise {A} e : strict w (raise e : M A).
Proof. intros t. exists []. simpl. by rewrite app_nil_r. Qed.

Lemma strict_lift {A} (r : result A) : strict w (lift r).
Proof. intros t. exists []. simpl. by rewrite app_nil_r. Qed.

Lemma strict_print line : strict w (print line).
Proof. intros t. by exists [Print line]. Qed.

Lemma strict_call {A} ev (answer : list event -> result A) :
  (forall t e, fatal w t ev = Some e -> answer t = Raise e) ->
  strict w (call ev answer).
Proof.
  intros Hans t. exists [ev]. split; [done|]. simpl.
  destruct (fatal w t ev) as [e|] eqn:He; [|done]. by rewrite (Hans t e He).
Qed.

Lemma strict_bind {A B} (m : M A) (f : A -> M B) :
  strict w m -> (forall a, strict w (f a)) -> strict w (m ≫= f).
Proof.
  intros Hm Hf t. rewrite bind_unfold.
  destruct (Hm t) as (d1 & Ht & Hd1). destruct (m t) as [t1 [a|e]]; simpl in *.
  - subst t1. destruct (Hf a (t ++ d1)) as (d2 & Ht2 & Hd2).
    exists (d1 ++ d2). rewrite Ht2, <- (assoc_L (++)). split; [done|].
    by eapply ends_on_fatal_Ok.
  - exists d1. split; [done|]. by eapply ends_on_fatal_Raise.
Qed.

Lemma strict_for_each {A S} (body : S -> A -> M S) l s :
  (forall s x, strict w (body s x)) -> strict w (for_each body l s).
Proof.
  intros Hbody. revert s. induction l as [|x l IH]; intros s; simpl.
  - apply strict_ret.
  - apply strict_bind; auto.
Qed.

Lemma failure_Raise {A} (r : result A) e : failure r = Some e -> r = Raise e.
Proof. destruct r; simpl; congruence. Qed.

Ltac strict_auto :=
  repeat first
    [ apply strict_bind; [|intros ?]
    | apply strict_print
    | apply strict_ret
    | apply strict_raise
    | apply strict_lift
    | apply strict_call; intros ? ?; apply failure_Raise ].

Lemma strict_int_ s : strict w (int_ w s).
Proof. unfold int_. destruct (py_int _ s); strict_auto. Qed.

Lemma strict_prologue : strict w (prologue w).
Proof.
  unfold prologue, read_config, load_issues, parse_issues_file.
  repeat first [ apply strict_int_ | progress strict_auto ].
Qed.

Lemma strict_connect : strict w (connect w).
Proof.
  unfold connect.
  destruct (environ w "GITHUB_TOKEN") as [[|c tok]|]; [strict_auto| |strict_auto].
  destruct (environ w "GITHUB_REPOSITORY") as [[|c' repo]|]; strict_auto.
Qed.

Lemma strict_ensure_label existing label : strict w (ensure_label w existing label).
Proof. unfold ensure_label. destruct (decide _); strict_auto. Qed.

Lemma strict_process_issue dry st issue : strict w (process_issue w dry st issue).
Proof.
  destruct st as [existing c]. destruct dry.
  - intros t. rewrite process_issue_dry. exists (dry_report issue).
    split; [done|]. apply ends_on_fatal_prints. repeat constructor; eauto.
  - intros t.
    destruct (strict_for_each (ensure_label w) (labels issue) existing
                (strict_ensure_label) (t ++ issue_header false issue))
      as (d2 & Ht2 & Hd2).
    destruct (for_each (ensure_label w) _ _ _) as [t2 r2] eqn:Hlabels.
    rewrite (process_issue_live w _ c _ _ _ _ Hlabels).
    simpl in Ht2, Hd2. subst t2.
    assert (forall B (r : result B),
      ends_on_fatal w t (issue_header false issue) (Ok tt)) as Hhead.
    { intros. apply ends_on_fatal_prints. repeat constructor; eauto. }
    destruct r2 as [existing'|e].
    + assert (forall B tail (r : result B),
        ends_on_fatal w ((t ++ issue_header false issue) ++ d2) tail r ->
        ends_on_fatal w t ((issue_header false issue ++ d2) ++ tail) r) as Hthen.
      { intros B tail r Htail.
        eapply (ends_on_fatal_Ok _ _ _ existing');
          [|by rewrite (assoc_L (++))].
        eapply ends_on_fatal_Ok; [apply (Hhead unit (Ok tt))|exact Hd2]. }
      destruct (create_issue w _ _ _ _) as [[n url]|e] eqn:Hc;
        [|destruct (is_Exception e) eqn:He];
        eexists ((issue_header false issue ++ d2) ++ _);
        (split; [cbn [fst]; by rewrite <- !(assoc_L (++))|]);
        apply Hthen; cbn [snd ends_on_fatal fatal create_call];
        rewrite Hc, ?He; done.
    + exists (issue_header false issue ++ d2). split; [by rewrite (assoc_L (++))|].
      eapply ends_on_fatal_Raise.
      eapply ends_on_fatal_Ok; [apply (Hhead unit (Ok tt))|exact Hd2].
Qed.

Lemma strict_summary dry n fi : strict w (summary dry n fi).
Proof. unfold summary. destruct dry; strict_auto. Qed.

Lemma strict_main : strict w (main w).
Proof.
  intros t. rewrite main_phases. revert t.
  apply strict_bind; [apply strict_prologue|intros [cfg fi]].
  unfold epilogue. cbn [fst snd].
  apply strict_bind; [destruct (negb _); [apply strict_connect|apply strict_ret]|].
  intros existing.
  apply strict_bind; [|intros st; apply strict_summary].
  apply strict_for_each. intros. apply strict_process_issue.
Qed.

Lemma ends_on_fatal_at {A} t d (r : result A) before ev after e :
  ends_on_fatal w t d r -> d = before ++ ev :: after ->
  fatal w (t ++ before) ev = Some e ->
  after = [] /\ r = Raise e.
Proof.
  revert t d. induction before as [|b before IH]; intros t d Hd ->; simpl in *.
  - rewrite app_nil_r. intros He. by rewrite He in Hd.
  - destruct (fatal w t b) as [e'|].
    + destruct Hd as [Hnil _]. by destruct before.
    + intros He. eapply IH; [exact Hd|done|].
      by rewrite <- (assoc_L (++)).
Qed.

(** X12.  The script catches nothing but the [Exception]s of
    [create_issue].  When reading the document, fetching the repository,
    listing its labels or creating a label raises, or when [create_issue]
    raises something that is not an [Exception], that call is the last
    event of the run and the run ends with that exception: nothing is
    printed or called after it, in a dry run as in live mode. *)
Theorem uncaught_exception_ends_run
    (before after : list event) (ev : event) (e : exn) :
  (run w).1 = before ++ ev :: after ->
  fatal w before ev = Some e ->
  after = [] /\ (run w).2 = Raise e.
Proof.
  intros Ht He. destruct (strict_main []) as (d & Hd & Hends).
  eapply ends_on_fatal_at; [exact Hends| |exact He].
  by rewrite <- Ht.
Qed.

End Strict.

(** X12 at a tracker that refuses to create the label [logging]. *)
Lemma uncaught_exception_ends_run_witness :
  (run world_refusing_labels).1 =
    (config_lines false 1 20 ++ load_lines 2 2 1 20
       ++ [GetRepo "t0ken" "o/r"; GetLabels]
       ++ issue_header false logging_issue
       ++ [Print "  Creating label: logging"])
    ++ CreateLabel "logging" "0366d6" :: []
  /\ (run world_refusing_labels).2
     = Raise (Error "GithubException" "403 Forbidden").
Proof.
  assert ((run world_refusing_labels).1 =
    (config_lines false 1 20 ++ load_lines 2 2 1 20
       ++ [GetRepo "t0ken" "o/r"; GetLabels]
       ++ issue_header false logging_issue
       ++ [Print "  Creating label: logging"])
    ++ CreateLabel "logging" "0366d6" :: []) as Ht by (by vm_compute).
  split; [exact Ht|].
  by destruct (uncaught_exception_ends_run world_refusing_labels _ _ _
                 (Error "GithubException" "403 Forbidden") Ht eq_refl).
Defined.

(** *** Labels exist before they are used *)

Section Labels.

Variable w : world.

Lemma known_after_app t d1 d2 known :
  known_after w t (d1 ++ d2) known
  = known_after w (t ++ d1) d2 (known_after w t d1 known).
Proof.
  revert t known. induction d1 as [|ev d1 IH]; intros t known; simpl.
  - by rewrite app_nil_r.
  - by rewrite IH, <- (assoc_L (++)).
Qed.

Lemma label_discipline_app t d1 d2 known :
  label_discipline w t (d1 ++ d2) known <->
  label_discipline w t d1 known
  /\ label_discipline w (t ++ d1) d2 (known_after w t d1 known).
Proof.
  revert t known. induction d1 as [|ev d1 IH]; intros t known; simpl.
  - rewrite app_nil_r. tauto.
  - rewrite IH, <- (assoc_L (++)). simpl. tauto.
Qed.

(** What is known after the events [d] was known before, fetched or
    created. *)
Lemma known_after_elem t d known l :
  l ∈ known_after w t d known ->
  l ∈ known
  \/ (exists t1 t2 names,
        d = t1 ++ GetLabels :: t2 /\ get_labels w (t ++ t1) = Ok names
        /\ l ∈ names)
  \/ label_created d l.
Proof.
  revert t known. induction d as [|ev d IH]; intros t known; simpl; [by left|].
  intros Hl. destruct (IH _ _ Hl) as [Hk|[(t1 & t2 & names & -> & Hn & Hin)|Hc]].
  - destruct ev as [line|path|tok repo| |name color|title body labels];
      simpl in Hk; try by left.
    + destruct (get_labels w t) as [names|e] eqn:Hn; [|by left].
      apply elem_of_union in Hk as [Hk|Hk]; [|by left].
      right; left. exists [], d, names. rewrite app_nil_r.
      by rewrite elem_of_list_to_set in Hk.
    + apply elem_of_union in Hk as [Hk|Hk]; [|by left].
      apply elem_of_singleton in Hk as ->.
      right; right. by exists [], d, color.
  - right; left. exists (ev :: t1), t2, names.
    by rewrite <- (assoc_L (++)) in Hn.
  - right; right. destruct Hc as (t1 & t2 & color & ->).
    by exists (ev :: t1), t2, color.
Qed.

(** Whatever was known, fetched or created is known. *)
Lemma known_after_mono t d known l :
  l ∈ known -> l ∈ known_after w t d known.
Proof.
  revert t known. induction d as [|ev d IH]; intros t known Hl; simpl; [done|].
  apply IH. destruct ev; simpl; try done.
  - destruct (get_labels w t); [|done]. set_solver.
  - set_solver.
Qed.

Lemma known_after_fetched t d known l :
  (exists t1 t2 names,
     d = t1 ++ GetLabels :: t2 /\ get_labels w (t ++ t1) = Ok names /\ l ∈ names) ->
  l ∈ known_after w t d known.
Proof.
  intros (t1 & t2 & names & -> & Hn & Hl).
  rewrite known_after_app. simpl. apply known_after_mono.
  rewrite Hn. apply elem_of_union_l. by apply elem_of_list_to_set.
Qed.

Lemma known_after_created t d known l :
  label_created d l -> l ∈ known_after w t d known.
Proof.
  intros (t1 & t2 & color & ->).
  rewrite known_after_app. simpl. apply known_after_mono. set_solver.
Qed.

Lemma label_discipline_local t d known :
  Forall local d -> label_discipline w t d known /\ known_after w t d known = known.
Proof.
  intros Hd. revert t. induction Hd as [|ev d Hev _ IH]; intros t; simpl; [done|].
  destruct ev as [line|path| | | |]; try discriminate Hev; simpl.
  - by destruct (IH (t ++ [Print line])).
  - by destruct (IH (t ++ [ReadFile path])).
Qed.

Lemma keeps_local {A} known (Q : A -> Prop) (m : M A) :
  traces local Q m -> keeps_labels w known m (fun _ => known).
Proof.
  intros Hm t. destruct (Hm t) as (d & Ht & Hd & _). exists d.
  destruct (label_discipline_local t d known Hd) as [H1 H2]. by repeat split.
Qed.

Lemma keeps_bind {A B} known (m : M A) (f : A -> M B) out1 out2 :
  keeps_labels w known m out1 ->
  (forall a, keeps_labels w (out1 a) (f a) out2) ->
  keeps_labels w known (m ≫= f) out2.
Proof.
  intros Hm Hf t. rewrite bind_unfold.
  destruct (Hm t) as (d1 & Ht & Hd1 & Hk). destruct (m t) as [t1 [a|e]]; simpl in *.
  - subst t1. destruct (Hf a (t ++ d1)) as (d2 & Ht2 & Hd2 & Hk2).
    exists (d1 ++ d2). rewrite Ht2, <- (assoc_L (++)). split; [done|].
    rewrite label_discipline_app, known_after_app, (Hk a eq_refl). by repeat split.
  - exists d1. by repeat split.
Qed.

Lemma disciplined_bind {A B} known (m : M A) (f : A -> M B) out1 :
  keeps_labels w known m out1 ->
  (forall a, disciplined w (out1 a) (f a)) ->
  disciplined w known (m ≫= f).
Proof.
  intros Hm Hf t. rewrite bind_unfold.
  destruct (Hm t) as (d1 & Ht & Hd1 & Hk). destruct (m t) as [t1 [a|e]]; simpl in *.
  - subst t1. destruct (Hf a (t ++ d1)) as (d2 & Ht2 & Hd2).
    exists (d1 ++ d2). rewrite Ht2, <- (assoc_L (++)). split; [done|].
    rewrite label_discipline_app, (Hk a eq_refl). by split.
  - by exists d1.
Qed.

Lemma keeps_for_each {A S} (proj : S -> gset string) (body : S -> A -> M S) l s :
  (forall s x, keeps_labels w (proj s) (body s x) proj) ->
  keeps_labels w (proj s) (for_each body l s) proj.
Proof.
  intros Hbody. revert s. induction l as [|x l IH]; intros s; simpl.
  - intros t. exists []. simpl. rewrite app_nil_r. repeat split.
    by intros ? [= <-].
  - eapply keeps_bind; [apply Hbody|]. auto.
Qed.

Lemma keeps_connect : keeps_labels w ∅ (connect w) id.
Proof.
  unfold connect.
  assert (forall line, keeps_labels w ∅
            (print line;; raise (SystemExit 1) : M (gset string)) id) as Hexit.
  { intros line t. exists [Print line]. by repeat split. }
  destruct (environ w "GITHUB_TOKEN") as [[|c tok]|]; [apply Hexit| |apply Hexit].
  destruct (environ w "GITHUB_REPOSITORY") as [[|c' repo]|];
    [apply Hexit| |apply Hexit].
  intros t. rewrite call_bind.
  destruct (get_repo w t _ _) as [[]|e].
  - rewrite call_bind. exists [GetRepo (String c tok) (String c' repo); GetLabels].
    rewrite <- (assoc_L (++)). split; [by destruct (get_labels w _)|].
    split; [done|]. simpl.
    destruct (get_labels w _) as [names|e]; [|done].
    intros a [= <-]. unfold id. set_solver.
  - exists [GetRepo (String c tok) (String c' repo)]. by repeat split.
Qed.

Lemma keeps_ensure_label existing label :
  keeps_labels w existing (ensure_label w existing label) id.
Proof.
  unfold ensure_label. destruct (decide _) as [Hin|Hout].
  - intros t. exists []. simpl. rewrite app_nil_r. repeat split.
    by intros ? [= <-].
  - intros t. rewrite print_bind, call_bind.
    exists [Print ("  Creating label: " +:+ label); CreateLabel label "0366d6"].
    rewrite <- (assoc_L (++)).
    destruct (create_label w _ label "0366d6") as [[]|e]; simpl;
      repeat split; try done.
    by intros a [= <-].
Qed.

Lemma ensure_label_covers existing label t t' existing' :
  ensure_label w existing label t = (t', Ok existing') ->
  existing ⊆ existing' /\ label ∈ existing'.
Proof.
  unfold ensure_label. destruct (decide _) as [Hin|Hout].
  - by intros [= _ <-].
  - rewrite print_bind, call_bind.
    destruct (create_label w _ label "0366d6") as [[]|e]; [|done].
    intros [= _ <-]. set_solver.
Qed.

Lemma ensure_labels_cover ls existing t t' existing' :
  for_each (ensure_label w) ls existing t = (t', Ok existing') ->
  existing ⊆ existing' /\ Forall (.∈ existing') ls.
Proof.
  revert existing t. induction ls as [|l ls IH]; intros existing t; simpl.
  - by intros [= _ <-].
  - rewrite bind_unfold.
    destruct (ensure_label w existing l t) as [t1 [ex1|e]] eqn:H1; [|done].
    intros Hrest. destruct (ensure_label_covers _ _ _ _ _ H1) as [Hsub Hl].
    destruct (IH _ _ Hrest) as [Hsub' Hall].
    split; [set_solver|]. constructor; [set_solver|done].
Qed.

Lemma keeps_process_issue dry st issue :
  keeps_labels w st.1 (process_issue w dry st issue) fst.
Proof.
  destruct st as [existing c]. destruct dry.
  - intros t. rewrite process_issue_dry. exists (dry_report issue).
    assert (Forall local (dry_report issue)) as Hd by (by repeat constructor).
    destruct (label_discipline_local t _ existing Hd) as [H1 H2].
    split; [done|]. split; [done|]. cbn [snd]. by intros a [= <-].
  - intros t.
    assert (Forall local (issue_header false issue)) as Hhead
      by (by repeat constructor).
    destruct (label_discipline_local t _ existing Hhead) as [Hh1 Hh2].
    destruct (keeps_for_each id (ensure_label w) (labels issue) existing
                keeps_ensure_label (t ++ issue_header false issue))
      as (d2 & Ht2 & Hd2 & Hk2).
    destruct (for_each (ensure_label w) _ _ _) as [t2 r2] eqn:Hlabels.
    rewrite (process_issue_live w _ c _ _ _ _ Hlabels).
    simpl in Ht2, Hd2, Hk2. subst t2. unfold id in Hd2, Hk2.
    assert (label_discipline w t (issue_header false issue ++ d2) existing)
      as Hboth by (rewrite label_discipline_app, Hh2; by split).
    destruct r2 as [existing'|e].
    + specialize (Hk2 existing' eq_refl).
      assert (known_after w t (issue_header false issue ++ d2) existing
              = existing') as Hknown by (by rewrite known_after_app, Hh2).
      assert (Forall (.∈ existing') (labels issue)) as Hall
        by (by destruct (ensure_labels_cover _ _ _ _ _ Hlabels)).
      destruct (create_issue w _ _ _ _) as [[n url]|e];
        [|destruct (is_Exception e)];
        eexists ((issue_header false issue ++ d2) ++ _);
        (split; [cbn [fst]; by rewrite <- !(assoc_L (++))|]);
        cbn [fst snd]; rewrite label_discipline_app, !known_after_app, !Hh2, !Hk2;
        (split; [split; [done|]; split; [exact Hall|];
                 by apply label_discipline_local; repeat constructor|]);
        try done; by intros a [= <-].
    + exists (issue_header false issue ++ d2). rewrite (assoc_L (++)).
      split; [done|]. split; [exact Hboth|]. by intros a.
Qed.

Lemma disciplined_local {A} known (Q : A -> Prop) (m : M A) :
  traces local Q m -> disciplined w known m.
Proof.
  intros Hm t. destruct (Hm t) as (d & Ht & Hd & _). exists d.
  by destruct (label_discipline_local t d known Hd).
Qed.

Lemma disciplined_main : disciplined w ∅ (main w).
Proof.
  intros t. rewrite main_phases. revert t.
  eapply disciplined_bind; [exact (keeps_local ∅ _ _ (prologue_traces w))|].
  intros [cfg fi]. unfold epilogue. cbn [fst snd].
  eapply (disciplined_bind _ _ _ id).
  { destruct (negb _); [apply keeps_connect|].
    intros t. exists []. simpl. rewrite app_nil_r. repeat split.
    by intros ? [= <-]. }
  intros existing.
  eapply (disciplined_bind _ _ _ fst).
  { apply (keeps_for_each fst (process_issue w (dry_run cfg)) fi (existing, 0)).
    intros st x. apply keeps_process_issue. }
  intros st. eapply disciplined_local, summary_traces.
Qed.

(** At every event of a run, the discipline holds for the labels fetched
    and created before it. *)
Lemma run_allowed before ev after :
  (run w).1 = before ++ ev :: after ->
  allowed (known_after w [] before ∅) ev.
Proof.
  intros Ht. destruct (disciplined_main []) as (d & Hd & Hdisc).
  simpl in Hd. unfold run in Ht. rewrite Hd in Ht. subst d.
  apply label_discipline_app in Hdisc as [_ Hdisc]. by destruct Hdisc.
Qed.

Lemma known_run before l :
  l ∈ known_after w [] before ∅ <-> fetched w before l \/ label_created before l.
Proof.
  split.
  - intros Hl. apply known_after_elem in Hl as [Hl|[Hl|Hl]];
      [set_solver|by left|by right].
  - intros [Hl|Hl]; [by apply known_after_fetched|by apply known_after_created].
Qed.

(** X11.  Every label that is passed to [create_issue] exists in the
    repository as far as the script can tell: it was among the names that
    the earlier [get_labels] call answered, or [create_label] was called
    for it earlier in the run. *)
Theorem issue_labels_exist
    (before after : list event) (title body l : string) (labels : list string) :
  (run w).1 = before ++ CreateIssue title body labels :: after ->
  l ∈ labels ->
  fetched w before l \/ label_created before l.
Proof.
  intros Ht Hl. apply known_run.
  pose proof (run_allowed _ _ _ Ht) as Hall. simpl in Hall.
  by eapply Forall_forall in Hall.
Qed.

(** X15.  [create_label] is called only for a name that is new: a name
    that [get_labels] answered is never created, and no name is created
    twice, also when several issues carry it. *)
Theorem label_created_once
    (before after : list event) (name color : string) :
  (run w).1 = before ++ CreateLabel name color :: after ->
  ~ fetched w before name /\ ~ label_created before name.
Proof.
  intros Ht. pose proof (run_allowed _ _ _ Ht) as Hnew. simpl in Hnew.
  split; intros H; apply Hnew, known_run; [by left|by right].
Qed.

End Labels.

(** X11 at the first issue of [live_world]: [logging] was created just
    before, [enhancement] was fetched. *)
Lemma issue_labels_exist_witness :
  (run live_world).1
    = before_first_issue ++ create_call logging_issue :: after_first_issue
  /\ "logging" ∈ labels logging_issue
  /\ (fetched live_world before_first_issue "logging"
      \/ label_created before_first_issue "logging").
Proof.
  assert ((run live_world).1
    = before_first_issue ++ create_call logging_issue :: after_first_issue)
    as Ht by (by vm_compute).
  assert ("logging" ∈ labels logging_issue) as Hl by (right; left).
  split; [exact Ht|]. split; [exact Hl|].
  exact (issue_labels_exist live_world _ _ _ _ _ _ Ht Hl).
Defined.

(** X15 at the label [logging] of [live_world]. *)
Lemma label_created_once_witness :
  (run live_world).1
    = (config_lines false 1 20 ++ load_lines 2 2 1 20
         ++ [GetRepo "t0ken" "o/r"; GetLabels]
         ++ issue_header false logging_issue
         ++ [Print "  Creating label: logging"])
      ++ CreateLabel "logging" "0366d6"
      :: create_call logging_issue :: after_first_issue
  /\ ~ fetched live_world
        (config_lines false 1 20 ++ load_lines 2 2 1 20
           ++ [GetRepo "t0ken" "o/r"; GetLabels]
           ++ issue_header false logging_issue
           ++ [Print "  Creating label: logging"]) "logging".
Proof.
  assert ((run live_world).1
    = (config_lines false 1 20 ++ load_lines 2 2 1 20
         ++ [GetRepo "t0ken" "o/r"; GetLabels]
         ++ issue_header false logging_issue
         ++ [Print "  Creating label: logging"])
      ++ CreateLabel "logging" "0366d6"
      :: create_call logging_issue :: after_first_issue)
    as Ht by (by vm_compute).
  split; [exact Ht|].
  by destruct (label_created_once live_world _ _ _ _ Ht).
Defined.

(** *** A section, parsed and rendered *)

Section Content.

Variable maxd : nat.

Lemma preserved_strip text body :
  occurs_in (Str.strip text) body -> preserved text (Str.strip text) body.
Proof.
  intros Hin. split; [done|]. split; [apply strip_trim_of|]. split; [done|].
  intros Ht. by rewrite (strip_trimmed_id _ Ht) in Hin.
Qed.

(** Whatever the match, the record made of it renders its four texts. *)
Lemma issue_of_match_rendered m r :
  issue_of_match maxd m = Ok r -> rendered_from m r.
Proof.
  unfold issue_of_match. destruct (py_int maxd (group m 1)) as [n|]; [|done].
  intros [= <-]. destruct (body_contents
    {| number := n; short_title := Str.strip (group m 2);
       title := Str.strip (group m 3); description := Str.strip (group m 4);
       goals := Str.strip (group m 5); files := Str.strip (group m 6);
       acceptance := Str.strip (group m 7); labels := parse_labels (group m 8);
       effort := Str.strip (group m 9) |}) as (Bd & Bg & Bf & Ba).
  cbn [description goals files acceptance] in *.
  repeat split; cbn [description goals files acceptance];
    try apply strip_trim_of; try done;
    intros Ht; by rewrite (strip_trimmed_id _ Ht) in *.
Qed.

(** A match of the pattern whose digits are within the limit gives a
    record. *)
Lemma issue_of_match_allowed s m rest :
  match_here issue_pattern s = Some (m, rest) ->
  digits_allowed maxd (group m 1) ->
  exists r, issue_of_match maxd m = Ok r.
Proof.
  intros Hm Hlim.
  destruct (issue_match_groups _ _ _ Hm)
    as (num & short & ti & d & g & f & a & ls & e & ->).
  destruct (issue_match_classes _ _ _ _ _ _ _ _ _ _ _ Hm) as (Hne & Hnum & _).
  unfold issue_of_match. change (group [num; short; ti; d; g; f; a; ls; e] 1) with num in *.
  rewrite (py_int_digits maxd num Hne Hnum).
  apply within_limit in Hlim. rewrite Hlim. by eexists.
Qed.

Lemma collect_issues_Forall2 ms rs :
  collect_issues maxd ms = Ok rs ->
  Forall2 (fun m r => issue_of_match maxd m = Ok r) ms rs.
Proof.
  revert rs. induction ms as [|m ms IH]; intros rs; simpl.
  - intros [= <-]. constructor.
  - destruct (issue_of_match maxd m) as [r|] eqn:Hm; [|done].
    destruct (collect_issues maxd ms) as [rs'|]; [|done].
    intros [= <-]. constructor; [done|by apply IH].
Qed.

Lemma collect_issues_total ms :
  Forall (fun m => exists r, issue_of_match maxd m = Ok r) ms ->
  exists rs, collect_issues maxd ms = Ok rs.
Proof.
  induction 1 as [|m ms [r Hm] _ [rs IH]]; simpl; [by eexists|].
  rewrite Hm, IH. by eexists.
Qed.

(** A text that the pattern matches whole holds one match. *)
Lemma finditer_whole block m :
  match_here issue_pattern block = Some (m, "") ->
  finditer issue_pattern block = [m].
Proof.
  intros Hm. destruct block as [|a block]; [by vm_compute in Hm|].
  rewrite <- (append_nil_r (String a block)) in Hm |- *.
  by rewrite (finditer_match _ _ _ _ _ Hm).
Qed.

(** C2, amended.  A section block that the pattern matches whole, with a
    number within the digit limit of [int], is parsed into exactly one
    record, and the rendered body of this record contains the description,
    the goals, the files and the acceptance criteria of the block without
    the white space at their two ends; a text that neither starts nor ends
    with white space is found verbatim.  In a document, a block at which
    the pattern matches and before which no match starts gives such a
    record, the first of the result, and parsing goes on behind the block;
    so the same holds for every block that the scan from left to right
    finds: when their numbers are within the limit the parser returns, with
    one record for each found block, in order.  And every record comes from
    a block of the document at which the pattern matches. *)
Theorem content_preserved_up_to_strip :
  (forall block m,
      match_here issue_pattern block = Some (m, "") ->
      digits_allowed maxd (group m 1) ->
      exists r, parse_issues maxd block = Ok [r] /\ rendered_from m r)
  /\ (forall pre m rest,
        (forall pre1 pre2, pre = pre1 +:+ pre2 -> pre2 <> "" ->
           match_here issue_pattern (pre2 +:+ fill issue_pattern m +:+ rest)
           = None) ->
        match_here issue_pattern (fill issue_pattern m +:+ rest)
          = Some (m, rest) ->
        digits_allowed maxd (group m 1) ->
        exists r,
          rendered_from m r
          /\ parse_issues maxd (pre +:+ fill issue_pattern m +:+ rest)
             = match parse_issues maxd rest with
               | Ok rs => Ok (r :: rs)
               | Raise e => Raise e
               end)
  /\ (forall doc,
        Forall (fun m => digits_allowed maxd (group m 1))
               (finditer issue_pattern doc) ->
        exists rs, parse_issues maxd doc = Ok rs
          /\ Forall2 rendered_from (finditer issue_pattern doc) rs)
  /\ (forall doc rs r,
        parse_issues maxd doc = Ok rs -> r ∈ rs ->
        exists m before rest,
          doc = before +:+ fill issue_pattern m +:+ rest
          /\ match_here issue_pattern (fill issue_pattern m +:+ rest)
             = Some (m, rest)
          /\ rendered_from m r).
Proof.
  split; [|split; [|split]].
  - intros block m Hm Hlim. unfold parse_issues.
    rewrite (finditer_whole _ _ Hm). cbn [collect_issues].
    destruct (issue_of_match_allowed _ _ _ Hm Hlim) as [r Hr].
    rewrite Hr. exists r. split; [done|]. by apply issue_of_match_rendered.
  - intros pre m rest Hpre Hm Hlim.
    destruct (issue_of_match_allowed _ _ _ Hm Hlim) as [r Hr].
    exists r. split; [by apply issue_of_match_rendered|].
    unfold parse_issues. rewrite (finditer_skip_prefix _ _ _ Hpre).
    destruct (issue_fill_head _ _ _ Hm) as [body Hbody].
    rewrite Hbody in Hm |- *. rewrite (finditer_match _ _ _ _ _ Hm).
    cbn [collect_issues]. by rewrite Hr.
  - intros doc Hlim. unfold parse_issues.
    destruct (collect_issues_total (finditer issue_pattern doc)) as [rs Hrs].
    { apply Forall_forall. intros m Hin.
      pose proof Hin as (before & rest & _ & Hm)%finditer_from_sound.
      apply (issue_of_match_allowed _ _ _ Hm).
      by eapply Forall_forall in Hlim. }
    exists rs. split; [done|].
    eapply Forall2_impl; [by apply collect_issues_Forall2|].
    apply issue_of_match_rendered.
  - intros doc rs r Hp Hr.
    destruct (parse_issues_elem _ _ _ _ Hp Hr)
      as (m & before & rest & Hm & Hdoc & Hmatch).
    exists m, before, rest. split; [done|]. split; [done|].
    by apply issue_of_match_rendered.
Qed.

End Content.

(** The amended statement at [indented_doc], which is one block: its
    description is rendered without its indentation; and at the two
    sections that the scan finds in [two_issue_doc]. *)
Lemma content_preserved_up_to_strip_witness :
  (match_here issue_pattern indented_doc
     = Some (["1"; "Docs"; "Fix the docs"; "  indented text"; "G"; "F"; "A";
              "docs"; "1h"], "")
   /\ digits_allowed 4300 "1"
   /\ exists r,
        parse_issues 4300 indented_doc = Ok [r]
        /\ rendered_from ["1"; "Docs"; "Fix the docs"; "  indented text"; "G";
                          "F"; "A"; "docs"; "1h"] r)
  /\ (Forall (fun m => digits_allowed 4300 (Re.group m 1))
             (finditer issue_pattern two_issue_doc)
      /\ exists rs,
           parse_issues 4300 two_issue_doc = Ok rs
           /\ Forall2 rendered_from (finditer issue_pattern two_issue_doc) rs).
Proof.
  assert (match_here issue_pattern indented_doc
    = Some (["1"; "Docs"; "Fix the docs"; "  indented text"; "G"; "F"; "A";
             "docs"; "1h"], "")) as Hm by (by vm_compute).
  assert (digits_allowed 4300 "1") as Hlim by (right; simpl; lia).
  assert (finditer issue_pattern two_issue_doc
    = [ ["1"; "Logging"; "Add structured logging"; "Handlers print to stdout.";
         "- one logger"; "- main.go"; "- no fmt.Println left";
         "enhancement, logging"; "2 hours"];
        ["2"; "Tests"; "Cover the handlers"; "No handler test.";
         "- table tests"; "- handler_test.go"; "- coverage above 80%";
         "testing"; "1 day"] ]) as Hfind by (by vm_compute).
  assert (Forall (fun m => digits_allowed 4300 (Re.group m 1))
                 (finditer issue_pattern two_issue_doc)) as Hall.
  { rewrite Hfind. constructor; [exact Hlim|].
    constructor; [exact Hlim|constructor]. }
  destruct (content_preserved_up_to_strip 4300) as (Hblock & _ & Hdoc & _).
  split.
  - split; [exact Hm|]. split; [exact Hlim|].
    exact (Hblock indented_doc _ Hm Hlim).
  - split; [exact Hall|]. exact (Hdoc two_issue_doc Hall).
Defined.
